(** * simple-chess: the matchmaker and the turn-gated relay

    A shallow embedding of the Go backend ([backend/main.go] and
    [backend/game.go]): the [Message] and [ChessGame] structs,
    [NewChessGame], [Join], [wsHandler], and the three goroutines a
    successful [Join] starts ([playChess] and two
    [forwardFromWebsocketToChannel]), which talk over two unbuffered
    channels.

    The goroutines are embedded as a labelled transition system: an
    [Action] is one scheduling choice (the relay runs a statement, a
    reader's [ReadJSON] returns, a channel send meets the relay's
    [select], a reader returns), [step] executes it, and the [log] of a
    session records every [WriteJSON], [ReadJSON], channel communication
    and [Close] in the order they happen. *)

From Stdlib Require Import String List Bool Arith Lia.
Import ListNotations.
Open Scope string_scope.
Open Scope list_scope.

(** ** Data model *)

(** A [*websocket.Conn]: the connection objects are told apart by a
    number, and the pointer may be [nil]. *)
Definition Conn := nat.
Definition ConnPtr := option Conn.

(** [type Message struct]: five string fields; a field that is not set
    holds Go's zero value, the empty string. *)
Record Message := mkMessage {
  Type_ : string;
  Color : string;
  From : string;
  To : string;
  Promotion : string
}.

(** [Message{Type: "start", Color: c}] *)
Definition startMessage (c : string) : Message := mkMessage "start" c "" "" "".
(** [Message{Type: "error"}] *)
Definition errorMessage : Message := mkMessage "error" "" "" "" "".

(** The [required] and [required_if] parts of the struct's [validate]
    tags: [Type] is required, [Color] is required if [Type] is start,
    [From], [To] and [Promotion] are required if [Type] is move. A
    required string field is one that is not empty. *)
Definition nonempty (s : string) : bool := negb (s =? "").

Definition required_fields_ok (m : Message) : bool :=
  nonempty (Type_ m)
  && (if Type_ m =? "start" then nonempty (Color m) else true)
  && (if Type_ m =? "move"
      then nonempty (From m) && nonempty (To m) && nonempty (Promotion m)
      else true).

(** [type ChessGame struct] *)
Record ChessGame := mkChessGame {
  whiteWebsocket : ConnPtr;
  blackWebsocket : ConnPtr
}.

Inductive error := ErrCannotJoinStartedGame.

Inductive Side := White | Black.

Definition opposite (s : Side) : Side :=
  match s with White => Black | Black => White end.

Definition Side_eqb (a b : Side) : bool :=
  match a, b with
  | White, White | Black, Black => true
  | _, _ => false
  end.

(** ** The goroutines of one game *)

(** What one call of [ws.ReadJSON(&message)] gives back: the decoded
    message, or an error. *)
Inductive ReadResult :=
| ReadOk (message : Message)
| ReadErr.

(** Where [playChess] stands. [turnWhite] is its local variable. *)
Inductive RelayPc :=
| AtStart                          (* before [turnWhite := true] *)
| AtStartBlack (turnWhite : bool)  (* before the second [WriteJSON] *)
| AtSelect (turnWhite : bool)      (* blocked in [select] *)
| Returned.

(** Where one [forwardFromWebsocketToChannel] stands. *)
Inductive ReaderPc :=
| AtRead                      (* about to call [ws.ReadJSON] *)
| AtSend (message : Message)  (* blocked in [ch <- message] *)
| AtSendError                 (* blocked in [ch <- Message{Type: "error"}] *)
| AtReturn                    (* at [return]; the deferred [ws.Close()] is due *)
| Exited.

Inductive Event :=
| EvWriteJSON (c : Conn) (m : Message)  (* [c.WriteJSON(m)] was called *)
| EvReadJSON (s : Side) (r : ReadResult) (* the reader of side [s] got [r] *)
| EvChan (s : Side) (m : Message)       (* [m] passed over the channel of side [s] *)
| EvClose (c : Conn).                   (* [c.Close()] was called *)

(** The three goroutines started by one successful [Join], with the two
    pointers [playChess] was given. The channel of a side links that
    side's reader to [playChess]. A call on a [nil] pointer panics, and a
    panic in a goroutine ends the process: nothing runs afterwards. *)
Record Session := mkSession {
  sessWhite : ConnPtr;
  sessBlack : ConnPtr;
  relay : RelayPc;
  whiteReader : ReaderPc;
  blackReader : ReaderPc;
  log : list Event;
  panicked : bool
}.

Definition sessConn (s : Side) (p : Session) : ConnPtr :=
  match s with White => sessWhite p | Black => sessBlack p end.

Definition reader (s : Side) (p : Session) : ReaderPc :=
  match s with White => whiteReader p | Black => blackReader p end.

Definition set_relay (r : RelayPc) (p : Session) : Session :=
  mkSession (sessWhite p) (sessBlack p) r (whiteReader p) (blackReader p)
            (log p) (panicked p).

Definition set_reader (s : Side) (r : ReaderPc) (p : Session) : Session :=
  match s with
  | White => mkSession (sessWhite p) (sessBlack p) (relay p) r (blackReader p)
                       (log p) (panicked p)
  | Black => mkSession (sessWhite p) (sessBlack p) (relay p) (whiteReader p) r
                       (log p) (panicked p)
  end.

Definition emit (e : Event) (p : Session) : Session :=
  mkSession (sessWhite p) (sessBlack p) (relay p) (whiteReader p)
            (blackReader p) (log p ++ [e]) (panicked p).

Definition panic (p : Session) : Session :=
  mkSession (sessWhite p) (sessBlack p) (relay p) (whiteReader p)
            (blackReader p) (log p) true.

(** [ws.WriteJSON(m)]; its error result is dropped by every caller. *)
Definition WriteJSON (ws : ConnPtr) (m : Message) (p : Session) : Session :=
  match ws with
  | Some c => emit (EvWriteJSON c m) p
  | None => panic p
  end.

(** [ws.Close()] *)
Definition Close (ws : ConnPtr) (p : Session) : Session :=
  match ws with
  | Some c => emit (EvClose c) p
  | None => panic p
  end.

(** The statement after a call: it runs unless the call panicked. *)
Definition and_then (f : Session -> Session) (p : Session) : Session :=
  if panicked p then p else f p.

(** The two cases of the [select] in [playChess], entered with the
    [message] received and the current [turnWhite]. *)
Definition playChess_case (s : Side) (message : Message) (turnWhite : bool)
    (p : Session) : Session :=
  match s with
  | White =>
      if Type_ message =? "error" then set_relay Returned p
      else if turnWhite
           then and_then (set_relay (AtSelect false))
                         (WriteJSON (sessBlack p) message p)
           else p
  | Black =>
      if Type_ message =? "error" then set_relay Returned p
      else if negb turnWhite
           then and_then (set_relay (AtSelect true))
                         (WriteJSON (sessWhite p) message p)
           else p
  end.

(** Where a reader goes with what [ReadJSON] gave back. *)
Definition reader_after (r : ReadResult) : ReaderPc :=
  match r with
  | ReadOk message => AtSend message
  | ReadErr => AtSendError
  end.

(** One scheduling choice. *)
Inductive Action :=
| RelayRun                            (* [playChess] runs its next statement before the loop *)
| Read (s : Side) (r : ReadResult)    (* [ReadJSON] of reader [s] returns [r] *)
| Comm (s : Side)                     (* the send of reader [s] meets the [select] *)
| Exit (s : Side).                    (* reader [s] returns and closes its connection *)

(** What the reader of side [s] is blocked sending, if anything. *)
Definition offers (s : Side) (p : Session) : option (Message * ReaderPc) :=
  match reader s p with
  | AtSend m => Some (m, AtRead)
  | AtSendError => Some (errorMessage, AtReturn)
  | _ => None
  end.

(** [playChess] before its loop: [turnWhite := true] and the first
    [WriteJSON], then the second, then the [select]. *)
Definition playChess_start (p : Session) : option Session :=
  match relay p with
  | AtStart =>
      Some (and_then (set_relay (AtStartBlack true))
                     (WriteJSON (sessWhite p) (startMessage "white") p))
  | AtStartBlack turnWhite =>
      Some (and_then (set_relay (AtSelect turnWhite))
                     (WriteJSON (sessBlack p) (startMessage "black") p))
  | _ => None
  end.

(** [forwardFromWebsocketToChannel] at [err := ws.ReadJSON(&message)]
    when the call gives [r]: with an error the reader goes to send
    [Message{Type: "error"}], else to send the message. *)
Definition forwardFromWebsocketToChannel_read (s : Side) (r : ReadResult)
    (p : Session) : option Session :=
  match reader s p with
  | AtRead =>
      match sessConn s p with
      | None => Some (panic p)
      | Some _ => Some (set_reader s (reader_after r) (emit (EvReadJSON s r) p))
      end
  | _ => None
  end.

(** [forwardFromWebsocketToChannel] at its [return]: the deferred
    [ws.Close()] runs. *)
Definition forwardFromWebsocketToChannel_return (s : Side) (p : Session)
    : option Session :=
  match reader s p with
  | AtReturn => Some (Close (sessConn s p) (set_reader s Exited p))
  | _ => None
  end.

(** A communication on the channel of side [s], which has no buffer:
    the reader is blocked in its send and [playChess] in its [select].
    The reader goes on (to its next read, or to its [return] after the
    error message) and [playChess] runs the case of that channel. *)
Definition channel_comm (s : Side) (p : Session) : option Session :=
  match offers s p, relay p with
  | Some (m, next), AtSelect turnWhite =>
      Some (playChess_case s m turnWhite (emit (EvChan s m) (set_reader s next p)))
  | _, _ => None
  end.

Definition step (a : Action) (p : Session) : option Session :=
  if panicked p then None else
  match a with
  | RelayRun => playChess_start p
  | Read s r => forwardFromWebsocketToChannel_read s r p
  | Comm s => channel_comm s p
  | Exit s => forwardFromWebsocketToChannel_return s p
  end.

(** A schedule is a list of choices; a choice that cannot be taken in
    the current state (its goroutine is blocked or gone) is passed over. *)
Definition step_or_stay (p : Session) (a : Action) : Session :=
  match step a p with Some p' => p' | None => p end.

Definition run (acts : list Action) (p : Session) : Session :=
  fold_left step_or_stay acts p.

(** ** [NewChessGame] and [Join] *)

Definition NewChessGame (ws : ConnPtr) : ChessGame :=
  mkChessGame ws None.

(** The state in which the three [go] statements of [Join] leave the
    goroutines they start. *)
Definition spawn (white black : ConnPtr) : Session :=
  mkSession white black AtStart AtRead AtRead [] false.

(** The goroutine groups of the process, oldest first. *)
Definition Runtime := list Session.

(** [func (game *ChessGame) Join(ws)]: the game after the call, the
    goroutines after the call, and the error returned ([None] is [nil]). *)
Definition Join (game : ChessGame) (ws : ConnPtr) (rt : Runtime)
    : ChessGame * Runtime * option error :=
  match blackWebsocket game with
  | Some _ => (game, rt, Some ErrCannotJoinStartedGame)
  | None =>
      let game' := mkChessGame (whiteWebsocket game) ws in
      (game', rt ++ [spawn (whiteWebsocket game') (blackWebsocket game')], None)
  end.

(** ** [wsHandler] *)

(** The package variable [game] ([None] is [nil]) and the goroutines
    started so far. *)
Record Server := mkServer {
  game : option ChessGame;
  sessions : Runtime
}.

Definition initServer : Server := mkServer None [].

(** [wsHandler], from the pointer [upgrader.Upgrade] gave back (a failed
    upgrade is logged and the handler goes on with the [nil] pointer).
    The error [Join] returns is dropped. The handler takes no lock on
    [game]; here one call runs from start to end before the next, so the
    arrivals are a list. *)
Definition wsHandler (srv : Server) (ws : ConnPtr) : Server :=
  match game srv with
  | None => mkServer (Some (NewChessGame ws)) (sessions srv)
  | Some g =>
      let '(_, rt, _) := Join g ws (sessions srv) in
      mkServer None rt
  end.

Definition serve (arrivals : list ConnPtr) (srv : Server) : Server :=
  fold_left wsHandler arrivals srv.

(** The arrivals paired two by two, and the one left over when their
    number is odd. *)
Fixpoint pair_up (arrivals : list ConnPtr) : list (ConnPtr * ConnPtr) :=
  match arrivals with
  | first :: second :: rest => (first, second) :: pair_up rest
  | _ => []
  end.

Fixpoint left_over (arrivals : list ConnPtr) : option ConnPtr :=
  match arrivals with
  | [] => None
  | [last] => Some last
  | _ :: _ :: rest => left_over rest
  end.

(** ** Readings of a log *)

(** The [WriteJSON] calls, the messages that passed over the channel of
    one side, and what the reader of one side read, each in order. *)
Definition writes (l : list Event) : list (Conn * Message) :=
  flat_map (fun e => match e with EvWriteJSON c m => [(c, m)] | _ => [] end) l.

Definition chan (s : Side) (l : list Event) : list Message :=
  flat_map (fun e => match e with
                     | EvChan s' m => if Side_eqb s s' then [m] else []
                     | _ => []
                     end) l.

Definition reads (s : Side) (l : list Event) : list ReadResult :=
  flat_map (fun e => match e with
                     | EvReadJSON s' r => if Side_eqb s s' then [r] else []
                     | _ => []
                     end) l.

(** The message a reader publishes for what it read. *)
Definition published (r : ReadResult) : Message :=
  match r with ReadOk message => message | ReadErr => errorMessage end.

Definition is_ok (r : ReadResult) : bool :=
  match r with ReadOk _ => true | ReadErr => false end.

(** Whether side [s] holds the turn. *)
Definition holds_turn (s : Side) (turnWhite : bool) : bool :=
  match s with White => turnWhite | Black => negb turnWhite end.

(** ** The members of the JSON object [WriteJSON] puts on the wire

    [WriteJSON] encodes the struct with [encoding/json]: one member per
    field, under the name of its [json] tag, in the order of the
    declaration; no tag says [omitempty], so an empty field is written
    too. The object is kept as its list of members, names and string
    values, in wire order. *)
Definition WireObject := list (string * string).

Definition wire_of (m : Message) : WireObject :=
  [("type", Type_ m); ("color", Color m); ("from", From m); ("to", To m);
   ("promotion", Promotion m)].

(** ** Invariants of a session between two connections *)

Definition conn_of (cw cb : Conn) (s : Side) : Conn :=
  match s with White => cw | Black => cb end.

(** A [WriteJSON] that relays: it goes to the connection opposite to a
    side whose reader read that very message, and the message is not of
    the error kind. *)
Definition forwarded_from (l : list Event) (cw cb : Conn)
    (w : Conn * Message) : Prop :=
  exists s, fst w = conn_of cw cb (opposite s)
            /\ In (EvReadJSON s (ReadOk (snd w))) l
            /\ (Type_ (snd w) =? "error") = false.

(** The [WriteJSON] calls made so far, by where [playChess] stands: the
    two start messages come first, in this order, and every later call
    relays; the turn is white's when the number of relayed messages is
    even. *)
Definition writes_shape (cw cb : Conn) (r : RelayPc) (l : list Event) : Prop :=
  match r with
  | AtStart => writes l = []
  | AtStartBlack t => t = true /\ writes l = [(cw, startMessage "white")]
  | AtSelect t =>
      exists rest,
        writes l = (cw, startMessage "white") :: (cb, startMessage "black") :: rest
        /\ t = Nat.even (length rest)
        /\ Forall (forwarded_from l cw cb) rest
  | Returned =>
      exists rest,
        writes l = (cw, startMessage "white") :: (cb, startMessage "black") :: rest
        /\ Forall (forwarded_from l cw cb) rest
  end.

(** A reader blocked in [ch <- message] holds a message it read. *)
Definition reader_sourced (s : Side) (rd : ReaderPc) (l : list Event) : Prop :=
  match rd with
  | AtSend m => In (EvReadJSON s (ReadOk m)) l
  | _ => True
  end.

Definition relay_inv (cw cb : Conn) (p : Session) : Prop :=
  sessWhite p = Some cw /\ sessBlack p = Some cb /\ panicked p = false
  /\ (forall s, reader_sourced s (reader s p) (log p))
  /\ writes_shape cw cb (relay p) (log p).

(** What one reader has read and what has passed over its channel, by
    where the reader stands: every read before the last was a message,
    and the channel carried what was read, in order, up to the one the
    reader is blocked sending. *)
Definition reader_inv (s : Side) (p : Session) : Prop :=
  let rs := reads s (log p) in
  let ch := chan s (log p) in
  match reader s p with
  | AtRead => forallb is_ok rs = true /\ ch = map published rs
  | AtSend m =>
      exists before, rs = before ++ [ReadOk m]
                     /\ forallb is_ok before = true /\ ch = map published before
  | AtSendError =>
      exists before, rs = before ++ [ReadErr]
                     /\ forallb is_ok before = true /\ ch = map published before
  | AtReturn | Exited =>
      exists before, rs = before ++ [ReadErr]
                     /\ forallb is_ok before = true
                     /\ ch = map published before ++ [errorMessage]
  end.

(** What the reader of one side and its channel show of a state. *)
Definition same_view (s : Side) (p q : Session) : Prop :=
  reader s q = reader s p
  /\ reads s (log q) = reads s (log p)
  /\ chan s (log q) = chan s (log p).

(** A reader that waits for [playChess] to receive. *)
Definition blocked (rd : ReaderPc) : bool :=
  match rd with
  | AtSend _ | AtSendError => true
  | _ => false
  end.

Definition start_writes (cw cb : Conn) : list (Conn * Message) :=
  [(cw, startMessage "white"); (cb, startMessage "black")].

(** The object [handleMove] of the frontend sends for a promotion:
    [JSON.stringify({ from, to, promotion, color: color.value, type: 'move' })]. *)
Definition frontend_move : WireObject :=
  [("from", "e7"); ("to", "e8"); ("promotion", "q"); ("color", "white");
   ("type", "move")].

(** What stays of a state [p] in which [playChess] has returned, in a
    later state [q]: the relay is still returned, the same [WriteJSON]
    calls were made, the channels carried the same messages, and a reader
    that was blocked is where it was. *)
Definition after_return (p q : Session) : Prop :=
  relay q = Returned
  /\ writes (log q) = writes (log p)
  /\ forall s, chan s (log q) = chan s (log p)
               /\ (blocked (reader s p) = true -> reader s q = reader s p).

(** What a reader is blocked sending. *)
Definition pending (rd : ReaderPc) : list Message :=
  match rd with
  | AtSend m => [m]
  | AtSendError => [errorMessage]
  | _ => []
  end.

(** ** Messages used as examples *)

(** A move as the frontend sends it, one with a promotion, one whose
    [to] is missing, and a message of the error kind written by a client. *)
Definition e2e4 : Message := mkMessage "move" "white" "e2" "e4" "".

Definition promotion_move : Message := mkMessage "move" "white" "e7" "e8" "q".

Definition move_missing_to : Message := mkMessage "move" "white" "e2" "" "q".

Definition client_error : Message := mkMessage "error" "black" "e7" "e5" "".

(** ** [playChess] read as a function of what it receives *)

(** The channel communications of a log, in the order [playChess]
    received them, each with the side of its channel. *)
Definition arrivals (l : list Event) : list (Side * Message) :=
  flat_map (fun e => match e with EvChan s m => [(s, m)] | _ => [] end) l.

(** One turn of the loop of [playChess], on the message [snd a] received
    from the channel of side [fst a]. The state is [turnWhite], or [None]
    once the function has returned, with the messages written so far,
    each with the side it was written to. *)
Definition playChess_receive (st : option bool * list (Side * Message))
    (a : Side * Message) : option bool * list (Side * Message) :=
  match fst st with
  | None => st
  | Some turnWhite =>
      if Type_ (snd a) =? "error" then (None, snd st)
      else if holds_turn (fst a) turnWhite
           then (Some (negb turnWhite), snd st ++ [(opposite (fst a), snd a)])
           else st
  end.

(** The loop from [turnWhite := true]. *)
Definition playChess_loop (received : list (Side * Message))
    : option bool * list (Side * Message) :=
  fold_left playChess_receive received (Some true, []).

(** The [WriteJSON] call for a message written to a side. *)
Definition deliver (cw cb : Conn) (f : Side * Message) : Conn * Message :=
  (conn_of cw cb (fst f), snd f).

Definition is_error (a : Side * Message) : bool := Type_ (snd a) =? "error".

(** The messages of one side in a list of messages with their sides. *)
Definition of_side (s : Side) (l : list (Side * Message)) : list Message :=
  map snd (filter (fun a => Side_eqb s (fst a)) l).

(** [subseq l1 l2]: [l1] is [l2] with some elements left out. *)
Inductive subseq {A : Type} : list A -> list A -> Prop :=
| subseq_nil : subseq [] []
| subseq_skip x l1 l2 : subseq l1 l2 -> subseq l1 (x :: l2)
| subseq_take x l1 l2 : subseq l1 l2 -> subseq (x :: l1) (x :: l2).

(** What was written to one connection, in order. *)
Definition written_to (c : Conn) (l : list Event) : list Message :=
  map snd (filter (fun w => Nat.eqb (fst w) c) (writes l)).

(** The side the [k]-th relayed message is written to. *)
Definition receiver (k : nat) : Side := if Nat.even k then Black else White.

(** Messages received in turn: the [k]-th from the side opposite to the
    [k]-th receiver, white first, none of the error kind. *)
Definition in_turn (received : list (Side * Message)) : Prop :=
  forall k s m, nth_error received k = Some (s, m) ->
                s = opposite (receiver k) /\ (Type_ m =? "error") = false.

Definition pass_on (a : Side * Message) : Side * Message :=
  (opposite (fst a), snd a).

(** How [playChess] and the loop function agree, by where [playChess]
    stands. *)
Definition loop_inv (cw cb : Conn) (p : Session) : Prop :=
  match relay p with
  | AtStart | AtStartBlack _ => arrivals (log p) = []
  | AtSelect t =>
      exists fw, playChess_loop (arrivals (log p)) = (Some t, fw)
                 /\ writes (log p) = start_writes cw cb ++ map (deliver cw cb) fw
  | Returned =>
      exists fw, playChess_loop (arrivals (log p)) = (None, fw)
                 /\ writes (log p) = start_writes cw cb ++ map (deliver cw cb) fw
  end.

(** ** Closed connections *)

Definition closes (l : list Event) : list Conn :=
  flat_map (fun e => match e with EvClose c => [c] | _ => [] end) l.

Definition exited (rd : ReaderPc) : nat :=
  match rd with Exited => 1 | _ => 0 end.

Definition close_inv (cw cb : Conn) (p : Session) : Prop :=
  length (closes (log p)) = exited (reader White p) + exited (reader Black p)
  /\ forall c, In c (closes (log p)) ->
               exists s, c = conn_of cw cb s /\ reader s p = Exited.

(** ** A game with a nil pointer *)

Definition nil_inv (p : Session) : Prop :=
  (sessWhite p = None \/ sessBlack p = None)
  /\ arrivals (log p) = []
  /\ closes (log p) = []
  /\ (forall s, reader s p <> AtReturn)
  /\ match relay p with
     | AtStart => writes (log p) = []
     | AtStartBlack _ =>
         sessBlack p = None
         /\ exists c, sessWhite p = Some c
                      /\ writes (log p) = [(c, startMessage "white")]
     | _ => False
     end.

(** ** The connections of the games of a server *)

Definition members (p : Session) : list ConnPtr := [sessWhite p; sessBlack p].

Definition waiting (srv : Server) : list ConnPtr :=
  match game srv with
  | Some g => [whiteWebsocket g]
  | None => []
  end.

(** A reader that has exited has closed its connection. *)
Definition exited_closed (cw cb : Conn) (p : Session) : Prop :=
  forall s, reader s p = Exited -> In (conn_of cw cb s) (closes (log p)).

(** ** [wsHandler], statement by statement

    Each request is served by a call of [wsHandler] of its own, and the
    calls share the package variable [game] without a lock. A call is
    where it stands in the body, with the pointer its upgrade gave. *)
Inductive HandlerPc :=
| AtTest     (* at [if game == nil] *)
| AtCreate   (* at [game = NewChessGame(ws)] *)
| AtJoin     (* at [game.Join(ws)] *)
| AtClear    (* at [game = nil] *)
| Handled.

Record Call := mkCall {
  call_ws : ConnPtr;
  call_pc : HandlerPc
}.

(** The next statement of a call, on the shared state: the call and the
    state after it, or [None] when it panics ([Join] on a nil [game]
    reads a field of nil). *)
Definition call_statement (c : Call) (srv : Server) : option (Call * Server) :=
  match call_pc c with
  | AtTest =>
      Some (mkCall (call_ws c)
                   (match game srv with None => AtCreate | Some _ => AtJoin end),
            srv)
  | AtCreate =>
      Some (mkCall (call_ws c) Handled,
            mkServer (Some (NewChessGame (call_ws c))) (sessions srv))
  | AtJoin =>
      match game srv with
      | None => None
      | Some g =>
          let '(g', rt, _) := Join g (call_ws c) (sessions srv) in
          Some (mkCall (call_ws c) AtClear, mkServer (Some g') rt)
      end
  | AtClear => Some (mkCall (call_ws c) Handled, mkServer None (sessions srv))
  | Handled => Some (c, srv)
  end.

(** The shared state, the calls in the order of their arrival, and
    whether a call has panicked. *)
Record Process := mkProcess {
  shared : Server;
  calls : list Call;
  crashed : bool
}.

Fixpoint replace_nth {A : Type} (i : nat) (x : A) (l : list A) : list A :=
  match l, i with
  | [], _ => []
  | _ :: l', O => x :: l'
  | y :: l', S j => y :: replace_nth j x l'
  end.

(** The call of the [i]-th arrival runs its next statement. *)
Definition call_step (P : Process) (i : nat) : Process :=
  if crashed P then P else
  match nth_error (calls P) i with
  | None => P
  | Some c =>
      match call_statement c (shared P) with
      | None => mkProcess (shared P) (calls P) true
      | Some (c', srv') => mkProcess srv' (replace_nth i c' (calls P)) false
      end
  end.

Definition handle (schedule : list nat) (P : Process) : Process :=
  fold_left call_step schedule P.

(** The arrivals, each with its call at the start of the body. *)
Definition accepted (incoming : list ConnPtr) : Process :=
  mkProcess initServer (map (fun ws => mkCall ws AtTest) incoming) false.

(** The schedule in which no two calls overlap: each call, in the order
    of arrival, runs its (at most three) statements before the next. *)
Definition one_after_the_other (first n : nat) : list nat :=
  flat_map (fun i => [i; i; i]) (seq first n).

(** * Equations of the session operations *)

Arguments writes : simpl never.
Arguments chan : simpl never.
Arguments reads : simpl never.

Lemma writes_app l1 l2 : writes (l1 ++ l2) = writes l1 ++ writes l2.
Proof. apply flat_map_app. Qed.

Lemma chan_app s l1 l2 : chan s (l1 ++ l2) = chan s l1 ++ chan s l2.
Proof. apply flat_map_app. Qed.

Lemma reads_app s l1 l2 : reads s (l1 ++ l2) = reads s l1 ++ reads s l2.
Proof. apply flat_map_app. Qed.

Lemma Side_eqb_refl s : Side_eqb s s = true.
Proof. now destruct s. Qed.

Lemma Side_eqb_opposite s : Side_eqb s (opposite s) = false.
Proof. now destruct s. Qed.

Lemma reader_set_reader s s' r p :
  reader s' (set_reader s r p) = if Side_eqb s s' then r else reader s' p.
Proof. now destruct s, s'. Qed.

Lemma reader_set_relay s r p : reader s (set_relay r p) = reader s p.
Proof. now destruct s. Qed.

Lemma reader_emit s e p : reader s (emit e p) = reader s p.
Proof. now destruct s. Qed.

Lemma reader_panic s p : reader s (panic p) = reader s p.
Proof. now destruct s. Qed.

Lemma sessConn_set_reader s s' r p : sessConn s' (set_reader s r p) = sessConn s' p.
Proof. now destruct s, s'. Qed.

Lemma sessConn_set_relay s r p : sessConn s (set_relay r p) = sessConn s p.
Proof. now destruct s. Qed.

Lemma sessConn_emit s e p : sessConn s (emit e p) = sessConn s p.
Proof. now destruct s. Qed.

Lemma sessWhite_set_reader s r p : sessWhite (set_reader s r p) = sessWhite p.
Proof. now destruct s. Qed.

Lemma sessBlack_set_reader s r p : sessBlack (set_reader s r p) = sessBlack p.
Proof. now destruct s. Qed.

Lemma relay_set_reader s r p : relay (set_reader s r p) = relay p.
Proof. now destruct s. Qed.

Lemma log_set_reader s r p : log (set_reader s r p) = log p.
Proof. now destruct s. Qed.

Lemma panicked_set_reader s r p : panicked (set_reader s r p) = panicked p.
Proof. now destruct s. Qed.

Create Rewrite HintDb session.

#[local] Hint Rewrite reader_set_reader reader_set_relay reader_emit reader_panic
  sessConn_set_reader sessConn_set_relay sessConn_emit
  sessWhite_set_reader sessBlack_set_reader relay_set_reader log_set_reader
  panicked_set_reader Side_eqb_refl Side_eqb_opposite : session.

Lemma and_then_running f p : panicked p = false -> and_then f p = f p.
Proof. unfold and_then. now intros ->. Qed.

(** The two cases of the [select] are one rule read for either side. *)
Lemma playChess_case_eq s m t p :
  panicked p = false ->
  playChess_case s m t p
  = if Type_ m =? "error" then set_relay Returned p
    else if holds_turn s t
         then match sessConn (opposite s) p with
              | Some c => set_relay (AtSelect (negb t)) (emit (EvWriteJSON c m) p)
              | None => panic p
              end
         else p.
Proof.
  intros Hp. unfold playChess_case.
  destruct s, (Type_ m =? "error"), t; simpl; try reflexivity.
  - destruct (sessBlack p); simpl; [now rewrite and_then_running|reflexivity].
  - destruct (sessWhite p); simpl; [now rewrite and_then_running|reflexivity].
Qed.

(** What an enabled action does. *)
Lemma step_RelayRun p p' :
  step RelayRun p = Some p' ->
  panicked p = false
  /\ ((relay p = AtStart
       /\ p' = and_then (set_relay (AtStartBlack true))
                        (WriteJSON (sessWhite p) (startMessage "white") p))
      \/ (exists t, relay p = AtStartBlack t
                    /\ p' = and_then (set_relay (AtSelect t))
                                     (WriteJSON (sessBlack p) (startMessage "black") p))).
Proof.
  unfold step, playChess_start. destruct (panicked p); [discriminate|].
  destruct (relay p) as [|t|t|]; intros [= <-]; split; eauto.
Qed.

Lemma step_Read s r p p' :
  step (Read s r) p = Some p' ->
  panicked p = false /\ reader s p = AtRead
  /\ ((sessConn s p = None /\ p' = panic p)
      \/ (exists c, sessConn s p = Some c
                    /\ p' = set_reader s (reader_after r) (emit (EvReadJSON s r) p))).
Proof.
  unfold step, forwardFromWebsocketToChannel_read.
  destruct (panicked p); [discriminate|].
  destruct (reader s p); try discriminate.
  destruct (sessConn s p) as [c|]; intros [= <-]; repeat split; eauto.
Qed.

Lemma step_Comm s p p' :
  step (Comm s) p = Some p' ->
  panicked p = false
  /\ exists m next t,
      offers s p = Some (m, next) /\ relay p = AtSelect t
      /\ p' = playChess_case s m t (emit (EvChan s m) (set_reader s next p)).
Proof.
  unfold step, channel_comm. destruct (panicked p); [discriminate|].
  destruct (offers s p) as [[m next]|]; [|discriminate].
  destruct (relay p) as [| |t|]; try discriminate.
  intros [= <-]. split; [reflexivity|]. now exists m, next, t.
Qed.

Lemma step_Exit s p p' :
  step (Exit s) p = Some p' ->
  panicked p = false /\ reader s p = AtReturn
  /\ p' = Close (sessConn s p) (set_reader s Exited p).
Proof.
  unfold step, forwardFromWebsocketToChannel_return.
  destruct (panicked p); [discriminate|].
  destruct (reader s p); try discriminate. now intros [= <-].
Qed.

Lemma offers_inv s p m next :
  offers s p = Some (m, next) ->
  (reader s p = AtSend m /\ next = AtRead)
  \/ (reader s p = AtSendError /\ m = errorMessage /\ next = AtReturn).
Proof.
  unfold offers. destruct (reader s p); try discriminate; intros [= <- <-]; auto.
Qed.

Lemma run_invariant (I : Session -> Prop) :
  (forall a p p', I p -> step a p = Some p' -> I p') ->
  forall acts p, I p -> I (run acts p).
Proof.
  intros Hstep acts. induction acts as [|a acts IH]; intros p Hp; [exact Hp|].
  simpl. apply IH. unfold step_or_stay.
  destruct (step a p) eqn:E; [eapply Hstep; eauto | exact Hp].
Qed.

Lemma run_app acts1 acts2 p : run (acts1 ++ acts2) p = run acts2 (run acts1 p).
Proof. apply fold_left_app. Qed.


Lemma forwarded_from_grows l e cw cb w :
  forwarded_from l cw cb w -> forwarded_from (l ++ [e]) cw cb w.
Proof.
  intros (s & H1 & H2 & H3). exists s. repeat split; auto.
  apply in_or_app. now left.
Qed.

Lemma Forall_forwarded_grows l e cw cb rest :
  Forall (forwarded_from l cw cb) rest ->
  Forall (forwarded_from (l ++ [e]) cw cb) rest.
Proof. apply Forall_impl. intros w. apply forwarded_from_grows. Qed.

Lemma even_length_snoc {A} (l : list A) (x : A) :
  Nat.even (length (l ++ [x])) = negb (Nat.even (length l)).
Proof.
  rewrite length_app, Nat.add_1_r, Nat.even_succ. now rewrite <- Nat.negb_even.
Qed.

Lemma writes_shape_grows cw cb r l e :
  writes [e] = [] -> writes_shape cw cb r l -> writes_shape cw cb r (l ++ [e]).
Proof.
  intros He. unfold writes_shape. rewrite writes_app, He, app_nil_r.
  destruct r; auto.
  - intros (rest & H1 & H2 & H3). exists rest. repeat split; auto.
    now apply Forall_forwarded_grows.
  - intros (rest & H1 & H3). exists rest. repeat split; auto.
    now apply Forall_forwarded_grows.
Qed.

Lemma writes_shape_forward cw cb t l s m :
  writes_shape cw cb (AtSelect t) l ->
  In (EvReadJSON s (ReadOk m)) l ->
  (Type_ m =? "error") = false ->
  writes_shape cw cb (AtSelect (negb t))
    (l ++ [EvWriteJSON (conn_of cw cb (opposite s)) m]).
Proof.
  intros (rest & H1 & H2 & H3) Hin Hm.
  exists (rest ++ [(conn_of cw cb (opposite s), m)]).
  rewrite writes_app, H1, even_length_snoc, <- H2. repeat split.
  apply Forall_app. split.
  - now apply Forall_forwarded_grows.
  - constructor; [|constructor]. exists s. simpl. repeat split; auto.
    apply in_or_app. now left.
Qed.

Lemma writes_shape_return cw cb t l :
  writes_shape cw cb (AtSelect t) l -> writes_shape cw cb Returned l.
Proof. intros (rest & H1 & H2 & H3). now exists rest. Qed.

Lemma reader_sourced_grows s rd l e :
  reader_sourced s rd l -> reader_sourced s rd (l ++ [e]).
Proof. destruct rd; simpl; auto. intros H. apply in_or_app. now left. Qed.

Lemma sessConn_relay_inv cw cb p s :
  relay_inv cw cb p -> sessConn s p = Some (conn_of cw cb s).
Proof. intros (Hw & Hb & _). now destruct s. Qed.

Lemma relay_inv_step cw cb a p p' :
  relay_inv cw cb p -> step a p = Some p' -> relay_inv cw cb p'.
Proof.
  intros Inv H. pose proof Inv as (Hw & Hb & Hp & Hrd & Hrel).
  destruct a as [|s r|s|s].
  - apply step_RelayRun in H as (_ & [(Hr & ->)|(t & Hr & ->)]).
    + rewrite Hw. simpl. rewrite and_then_running by assumption.
      unfold relay_inv. simpl. repeat split; auto.
      * intros s. autorewrite with session. simpl. now apply reader_sourced_grows.
      * rewrite Hr in Hrel. simpl in Hrel. now rewrite writes_app, Hrel.
    + rewrite Hb. simpl. rewrite and_then_running by assumption.
      unfold relay_inv. simpl. repeat split; auto.
      * intros s. autorewrite with session. simpl. now apply reader_sourced_grows.
      * rewrite Hr in Hrel. destruct Hrel as [-> Hrel].
        exists []. rewrite writes_app, Hrel. repeat split; auto.
  - apply step_Read in H as (_ & Hs & [(Hc & ->)|(c & Hc & ->)]).
    + rewrite (sessConn_relay_inv cw cb) in Hc by assumption. discriminate.
    + unfold relay_inv. autorewrite with session. simpl. repeat split; auto.
      * intros s'. autorewrite with session. simpl.
        destruct (Side_eqb s s') eqn:E.
        -- destruct s, s'; try discriminate; destruct r; simpl; auto;
             apply in_or_app; right; now left.
        -- now apply reader_sourced_grows.
      * now apply writes_shape_grows.
  - apply step_Comm in H as (_ & m & next & t & Hoff & Hr & ->).
    rewrite playChess_case_eq by (simpl; autorewrite with session; assumption).
    autorewrite with session.
    assert (Hsrc : (Type_ m =? "error") = false -> In (EvReadJSON s (ReadOk m)) (log p)).
    { intros Hm. apply offers_inv in Hoff as [(Hs & _)|(_ & -> & _)]; [|discriminate].
      specialize (Hrd s). now rewrite Hs in Hrd. }
    assert (Hrd' : forall s', reader_sourced s' (if Side_eqb s s' then next else reader s' p)
                                (log p ++ [EvChan s m])).
    { intros s'. apply reader_sourced_grows. destruct (Side_eqb s s'); [|apply Hrd].
      apply offers_inv in Hoff as [(_ & ->)|(_ & _ & ->)]; exact I. }
    rewrite Hr in Hrel.
    assert (Hrel' : writes_shape cw cb (AtSelect t) (log p ++ [EvChan s m]))
      by now apply writes_shape_grows.
    destruct (Type_ m =? "error") eqn:Hm; [|destruct (holds_turn s t) eqn:Ht].
    + unfold relay_inv. simpl. autorewrite with session. repeat split; auto.
      * intros s'. autorewrite with session. apply Hrd'.
      * eapply writes_shape_return; eauto.
    + rewrite (sessConn_relay_inv cw cb) by assumption.
      unfold relay_inv. simpl. autorewrite with session. repeat split; auto.
      * intros s'. autorewrite with session. apply reader_sourced_grows, Hrd'.
      * apply writes_shape_forward; auto. apply in_or_app. left. auto.
    + unfold relay_inv. simpl. autorewrite with session. repeat split; auto.
      * intros s'. autorewrite with session. apply Hrd'.
      * now rewrite Hr.
  - apply step_Exit in H as (_ & Hs & ->).
    rewrite (sessConn_relay_inv cw cb) by assumption.
    unfold relay_inv. simpl. autorewrite with session. repeat split; auto.
    + intros s'. autorewrite with session. apply reader_sourced_grows.
      destruct (Side_eqb s s'); [exact I|apply Hrd].
    + now apply writes_shape_grows.
Qed.

Lemma relay_inv_spawn cw cb : relay_inv cw cb (spawn (Some cw) (Some cb)).
Proof.
  unfold relay_inv, spawn. simpl. repeat split; auto. now intros [].
Qed.

Lemma relay_inv_run cw cb acts :
  relay_inv cw cb (run acts (spawn (Some cw) (Some cb))).
Proof.
  apply run_invariant; [apply relay_inv_step | apply relay_inv_spawn].
Qed.


Lemma same_view_refl s p : same_view s p p.
Proof. now repeat split. Qed.

Lemma same_view_trans s p q r : same_view s p q -> same_view s q r -> same_view s p r.
Proof.
  intros (H1 & H2 & H3) (H4 & H5 & H6). repeat split; congruence.
Qed.

Lemma same_view_set_relay s r p : same_view s p (set_relay r p).
Proof. now repeat split. Qed.

Lemma same_view_panic s p : same_view s p (panic p).
Proof. now repeat split. Qed.

Lemma same_view_emit s e p :
  reads s [e] = [] -> chan s [e] = [] -> same_view s p (emit e p).
Proof.
  intros Hr Hc. split; [apply reader_emit|]. simpl. split.
  - now rewrite reads_app, Hr, app_nil_r.
  - now rewrite chan_app, Hc, app_nil_r.
Qed.

Lemma same_view_WriteJSON s ws m p : same_view s p (WriteJSON ws m p).
Proof.
  destruct ws; simpl; [now apply same_view_emit | apply same_view_panic].
Qed.

Lemma same_view_Close s ws p : same_view s p (Close ws p).
Proof.
  destruct ws; simpl; [now apply same_view_emit | apply same_view_panic].
Qed.

Lemma same_view_and_then s r p : same_view s p (and_then (set_relay r) p).
Proof.
  unfold and_then. destruct (panicked p); [apply same_view_refl | apply same_view_set_relay].
Qed.

Lemma same_view_playChess_case s s' m t p : same_view s p (playChess_case s' m t p).
Proof.
  unfold playChess_case.
  destruct s', (Type_ m =? "error"), t; simpl;
    try apply same_view_refl; try apply same_view_set_relay;
    (eapply same_view_trans; [apply same_view_WriteJSON | apply same_view_and_then]).
Qed.

Lemma same_view_other_reader s s' r p :
  Side_eqb s' s = false -> same_view s p (set_reader s' r p).
Proof.
  intros H. repeat split; autorewrite with session; auto. now rewrite H.
Qed.

Lemma reader_inv_same_view s p q : same_view s p q -> reader_inv s p -> reader_inv s q.
Proof. intros (H1 & H2 & H3). unfold reader_inv. now rewrite H1, H2, H3. Qed.

Lemma forallb_is_ok_snoc rs m :
  forallb is_ok rs = true -> forallb is_ok (rs ++ [ReadOk m]) = true.
Proof. intros H. now rewrite forallb_app, H. Qed.

Lemma reads_one s s' r : reads s [EvReadJSON s' r] = if Side_eqb s s' then [r] else [].
Proof. unfold reads. simpl. now rewrite app_nil_r. Qed.

Lemma chan_one s s' m : chan s [EvChan s' m] = if Side_eqb s s' then [m] else [].
Proof. unfold chan. simpl. now rewrite app_nil_r. Qed.

Lemma Side_eqb_sym s s' : Side_eqb s s' = Side_eqb s' s.
Proof. now destruct s, s'. Qed.

Lemma Side_eqb_eq s s' : Side_eqb s s' = true -> s = s'.
Proof. now destruct s, s'. Qed.

Lemma reader_inv_step s0 a p p' :
  reader_inv s0 p -> step a p = Some p' -> reader_inv s0 p'.
Proof.
  intros Inv H. destruct a as [|s r|s|s].
  - apply step_RelayRun in H as (_ & [(Hr & ->)|(t & Hr & ->)]);
      (eapply reader_inv_same_view; [|exact Inv]);
      (eapply same_view_trans; [apply same_view_WriteJSON | apply same_view_and_then]).
  - apply step_Read in H as (_ & Hs & [(Hc & ->)|(c & Hc & ->)]).
    + eapply reader_inv_same_view; [apply same_view_panic | exact Inv].
    + destruct (Side_eqb s s0) eqn:E.
      * apply Side_eqb_eq in E as ->.
        unfold reader_inv in *. rewrite Hs in Inv. destruct Inv as [Hok Hch].
        autorewrite with session. simpl.
        rewrite reads_app, chan_app, reads_one. autorewrite with session.
        replace (chan s0 [EvReadJSON s0 r]) with (@nil Message) by reflexivity.
        rewrite app_nil_r.
        destruct r as [m|]; simpl; exists (reads s0 (log p)); auto.
      * eapply reader_inv_same_view; [|exact Inv].
        apply (same_view_trans _ _ (emit (EvReadJSON s r) p));
          [apply same_view_emit | now apply same_view_other_reader].
        -- rewrite reads_one. now rewrite Side_eqb_sym, E.
        -- reflexivity.
  - apply step_Comm in H as (_ & m & next & t & Hoff & Hr & ->).
    eapply reader_inv_same_view; [apply same_view_playChess_case|].
    destruct (Side_eqb s s0) eqn:E.
    + apply Side_eqb_eq in E as ->.
      unfold reader_inv in *. simpl. autorewrite with session.
      rewrite reads_app, chan_app, chan_one. autorewrite with session.
      replace (reads s0 [EvChan s0 m]) with (@nil ReadResult) by reflexivity.
      rewrite app_nil_r.
      apply offers_inv in Hoff as [(Hs & ->)|(Hs & -> & ->)]; rewrite Hs in Inv;
        destruct Inv as (before & Hrs & Hok & Hch).
      * rewrite Hrs, map_app, Hch. split; [now apply forallb_is_ok_snoc | reflexivity].
      * exists before. now rewrite Hch.
    + eapply reader_inv_same_view; [|exact Inv].
      apply (same_view_trans _ _ (set_reader s next p));
        [now apply same_view_other_reader | apply same_view_emit].
      -- reflexivity.
      -- rewrite chan_one. now rewrite Side_eqb_sym, E.
  - apply step_Exit in H as (_ & Hs & ->).
    eapply reader_inv_same_view; [apply same_view_Close|].
    destruct (Side_eqb s s0) eqn:E.
    + apply Side_eqb_eq in E as ->.
      unfold reader_inv in *. autorewrite with session. now rewrite Hs in Inv.
    + eapply reader_inv_same_view; [now apply same_view_other_reader | exact Inv].
Qed.

Lemma reader_inv_spawn s w b : reader_inv s (spawn w b).
Proof. destruct s; now split. Qed.

Lemma reader_inv_run s w b acts : reader_inv s (run acts (spawn w b)).
Proof.
  apply run_invariant; [intros a p p'; apply reader_inv_step | apply reader_inv_spawn].
Qed.
(** * The model on small schedules *)

(** Black moves before white has: the move is received and dropped.
    White's move is then written to black and the turn passes. *)
Example black_first_is_dropped :
  let p := run [RelayRun; RelayRun; Read Black (ReadOk e2e4); Comm Black;
                Read White (ReadOk e2e4); Comm White] (spawn (Some 0) (Some 1)) in
  writes (log p) = [(0, startMessage "white"); (1, startMessage "black"); (1, e2e4)]
  /\ chan Black (log p) = [e2e4]
  /\ relay p = AtSelect false.
Proof. repeat split. Qed.

(** A game whose white pointer is nil (the upgrade had failed) panics at
    the first write; nothing runs afterwards. *)
Example nil_white_panics :
  run [RelayRun; Read Black ReadErr; RelayRun] (spawn None (Some 1))
  = mkSession None (Some 1) AtStart AtRead AtRead [] true.
Proof. reflexivity. Qed.

(** Both connections fail, white first: white's reader exits and closes
    its connection, black's stays in its send. *)
Example both_fail :
  let p := run [RelayRun; RelayRun; Read White ReadErr; Comm White; Exit White;
                Read Black ReadErr; Comm Black; Exit Black]
               (spawn (Some 0) (Some 1)) in
  relay p = Returned /\ reader White p = Exited /\ reader Black p = AtSendError
  /\ In (EvClose 0) (log p) /\ ~ In (EvClose 1) (log p).
Proof.
  repeat split; try reflexivity.
  - simpl. tauto.
  - simpl. intros H. repeat destruct H as [H|H]; try discriminate; exact H.
Qed.

Example five_arrivals :
  serve [Some 0; Some 1; Some 2; Some 3; Some 4] initServer
  = mkServer (Some (mkChessGame (Some 4) None))
             [spawn (Some 0) (Some 1); spawn (Some 2) (Some 3)].
Proof. reflexivity. Qed.

(** * Matchmaker, [NewChessGame] and [Join] *)

Lemma serve_two (first second : ConnPtr) (rest : list ConnPtr) (rt : Runtime) :
  serve (first :: second :: rest) (mkServer None rt)
  = serve rest (mkServer None (rt ++ [spawn first second])).
Proof. reflexivity. Qed.

Lemma serve_from_idle_bounded (n : nat) :
  forall arrivals rt,
    length arrivals <= n ->
    serve arrivals (mkServer None rt)
    = mkServer (option_map NewChessGame (left_over arrivals))
               (rt ++ map (fun wb => spawn (fst wb) (snd wb)) (pair_up arrivals)).
Proof.
  induction n as [|n IH]; intros arrivals rt Hlen.
  - destruct arrivals; [|simpl in Hlen; lia].
    simpl. now rewrite app_nil_r.
  - destruct arrivals as [|first [|second rest]].
    + simpl. now rewrite app_nil_r.
    + simpl. now rewrite app_nil_r.
    + rewrite serve_two, IH by (simpl in Hlen; lia).
      simpl. now rewrite <- app_assoc.
Qed.

Lemma serve_from_idle (arrivals : list ConnPtr) (rt : Runtime) :
  serve arrivals (mkServer None rt)
  = mkServer (option_map NewChessGame (left_over arrivals))
             (rt ++ map (fun wb => spawn (fst wb) (snd wb)) (pair_up arrivals)).
Proof. now apply (serve_from_idle_bounded (length arrivals)). Qed.

(** C6. [Join] on a game whose black slot is filled returns
    [ErrCannotJoinStartedGame] and changes nothing: the game keeps both
    slots, no goroutine is started and the running ones (the turn of a
    relay is a local of its [playChess]) are as before, none of them
    holding the late connection. *)
Theorem Join_started_game_changes_nothing
    (g : ChessGame) (ws : ConnPtr) (rt : Runtime) (c : Conn) :
  blackWebsocket g = Some c ->
  Join g ws rt = (g, rt, Some ErrCannotJoinStartedGame).
Proof. intros H. unfold Join. now rewrite H. Qed.

Lemma Join_started_game_changes_nothing_witness :
  Join (mkChessGame (Some 0) (Some 1)) (Some 2) [run [RelayRun; RelayRun] (spawn (Some 0) (Some 1))]
  = (mkChessGame (Some 0) (Some 1),
     [run [RelayRun; RelayRun] (spawn (Some 0) (Some 1))],
     Some ErrCannotJoinStartedGame).
Proof.
  apply (Join_started_game_changes_nothing
           (mkChessGame (Some 0) (Some 1)) (Some 2) _ 1).
  reflexivity.
Defined.

(** C10. [NewChessGame] gives a game with the connection in the white
    slot and an empty black slot; a [Join] that returns nil wrote the
    black slot only: the white slot is as it was, and the goroutines it
    started got these two pointers. *)
Theorem NewChessGame_Join_own_slot :
  (forall ws, NewChessGame ws = mkChessGame ws None)
  /\ (forall g ws rt g' rt',
         Join g ws rt = (g', rt', None) ->
         whiteWebsocket g' = whiteWebsocket g
         /\ blackWebsocket g' = ws
         /\ rt' = rt ++ [spawn (whiteWebsocket g) ws]).
Proof.
  split; [reflexivity|].
  intros g ws rt g' rt'. unfold Join.
  destruct (blackWebsocket g); [discriminate|].
  intros [= <- <-]. simpl. auto.
Qed.

Lemma NewChessGame_Join_own_slot_witness :
  whiteWebsocket (mkChessGame (Some 0) (Some 1)) = whiteWebsocket (NewChessGame (Some 0))
  /\ blackWebsocket (mkChessGame (Some 0) (Some 1)) = Some 1
  /\ [spawn (Some 0) (Some 1)]
     = [] ++ [spawn (whiteWebsocket (NewChessGame (Some 0))) (Some 1)].
Proof.
  apply (proj2 NewChessGame_Join_own_slot (NewChessGame (Some 0)) (Some 1) []).
  reflexivity.
Defined.

(** * The relay once [playChess] has returned *)

Lemma after_return_step p a q q' :
  after_return p q -> step a q = Some q' -> after_return p q'.
Proof.
  intros (Hr & Hw & Hs) H. destruct a as [|s r|s|s].
  - apply step_RelayRun in H as (_ & [(Hr' & _)|(t & Hr' & _)]); congruence.
  - apply step_Read in H as (_ & Hrd & [(Hc & ->)|(c & Hc & ->)]).
    + split; [exact Hr|]. split; [exact Hw|]. intros s0. autorewrite with session.
      apply Hs.
    + unfold after_return. autorewrite with session. simpl.
      rewrite writes_app, app_nil_r. split; [exact Hr|]. split; [exact Hw|].
      intros s0. split.
      * rewrite chan_app, app_nil_r. apply Hs.
      * intros Hb. autorewrite with session.
        destruct (Side_eqb s s0) eqn:E; [|now apply Hs].
        apply Side_eqb_eq in E as ->. pose proof (proj2 (Hs s0) Hb) as Heq.
        rewrite <- Heq, Hrd in Hb. discriminate.
  - apply step_Comm in H as (_ & m & next & t & _ & Hr' & _). congruence.
  - apply step_Exit in H as (_ & Hrd & ->).
    assert (Hsame : forall s0, blocked (reader s0 p) = true ->
                          (if Side_eqb s s0 then Exited else reader s0 q) = reader s0 p).
    { intros s0 Hb. destruct (Side_eqb s s0) eqn:E; [|now apply Hs].
      apply Side_eqb_eq in E as ->. pose proof (proj2 (Hs s0) Hb) as Heq.
      rewrite <- Heq, Hrd in Hb. discriminate. }
    unfold after_return, Close.
    destruct (sessConn s q); simpl; autorewrite with session.
    + rewrite writes_app, app_nil_r. split; [exact Hr|]. split; [exact Hw|].
      intros s0. split.
      * rewrite chan_app, app_nil_r. apply Hs.
      * autorewrite with session. apply Hsame.
    + split; [exact Hr|]. split; [exact Hw|]. intros s0. split;
        [apply Hs | autorewrite with session; apply Hsame].
Qed.

Lemma after_return_run p acts :
  relay p = Returned -> after_return p (run acts p).
Proof.
  intros Hr. apply run_invariant.
  - intros a q q'. apply after_return_step.
  - split; [exact Hr|]. split; [reflexivity|]. intros s. now split.
Qed.

Lemma Comm_enabled p s m next t :
  panicked p = false -> relay p = AtSelect t -> offers s p = Some (m, next) ->
  step (Comm s) p
  = Some (playChess_case s m t (emit (EvChan s m) (set_reader s next p))).
Proof. intros Hp Hr Ho. unfold step, channel_comm. now rewrite Hp, Ho, Hr. Qed.

Lemma Comm_error p s m next t :
  panicked p = false -> relay p = AtSelect t -> offers s p = Some (m, next) ->
  (Type_ m =? "error") = true ->
  step (Comm s) p
  = Some (set_relay Returned (emit (EvChan s m) (set_reader s next p))).
Proof.
  intros Hp Hr Ho Hm. rewrite (Comm_enabled p s m next t) by assumption.
  rewrite playChess_case_eq by (simpl; autorewrite with session; assumption).
  now rewrite Hm.
Qed.

(** C1. In a game between two connections the turn is white's as long
    as nothing was relayed. When a message arrives on the channel of a
    side while [playChess] waits in its [select]: from the side that
    holds the turn and not of the error kind, it is written to the other
    side's connection and the turn passes to the other side; from the
    side that does not hold the turn, nothing is written and the turn is
    not changed (an error-kind message ends the loop instead). *)
Theorem playChess_turn_gate
    (cw cb : Conn) (acts : list Action) (s : Side) (m : Message)
    (next : ReaderPc) (t : bool) :
  let p := run acts (spawn (Some cw) (Some cb)) in
  relay p = AtSelect t ->
  offers s p = Some (m, next) ->
  (writes (log p) = start_writes cw cb -> t = true)
  /\ exists p',
      step (Comm s) p = Some p'
      /\ (holds_turn s t = true -> (Type_ m =? "error") = false ->
          relay p' = AtSelect (negb t)
          /\ log p' = log p ++ [EvChan s m;
                                EvWriteJSON (conn_of cw cb (opposite s)) m])
      /\ (holds_turn s t = false ->
          writes (log p') = writes (log p)
          /\ relay p' = if Type_ m =? "error" then Returned else AtSelect t).
Proof.
  intros p Hr Ho.
  pose proof (relay_inv_run cw cb acts) as Inv. fold p in Inv.
  pose proof Inv as (Hw & Hb & Hp & Hrd & Hrel).
  split.
  - rewrite Hr in Hrel. destruct Hrel as (rest & H1 & H2 & _).
    rewrite H1. unfold start_writes. intros [= ->]. exact H2.
  - eexists. split; [now apply (Comm_enabled p s m next t)|].
    rewrite playChess_case_eq by (simpl; autorewrite with session; assumption).
    autorewrite with session.
    rewrite (sessConn_relay_inv cw cb p) by assumption.
    split.
    + intros -> ->. simpl. autorewrite with session.
      split; [reflexivity|]. now rewrite <- app_assoc.
    + intros ->. destruct (Type_ m =? "error"); simpl; autorewrite with session;
        rewrite writes_app, app_nil_r; auto.
Qed.

Lemma playChess_turn_gate_witness :
  let p := run [RelayRun; RelayRun; Read White (ReadOk e2e4)]
               (spawn (Some 0) (Some 1)) in
  (writes (log p) = start_writes 0 1 -> true = true)
  /\ exists p',
      step (Comm White) p = Some p'
      /\ (holds_turn White true = true -> (Type_ e2e4 =? "error") = false ->
          relay p' = AtSelect (negb true)
          /\ log p' = log p ++ [EvChan White e2e4;
                                EvWriteJSON (conn_of 0 1 (opposite White)) e2e4])
      /\ (holds_turn White true = false ->
          writes (log p') = writes (log p)
          /\ relay p' = if Type_ e2e4 =? "error" then Returned else AtSelect true).
Proof.
  apply (playChess_turn_gate 0 1 [RelayRun; RelayRun; Read White (ReadOk e2e4)]
           White e2e4 AtRead true); reflexivity.
Defined.

Lemma relay_past_start p cw cb :
  relay_inv cw cb p ->
  match relay (run [RelayRun; RelayRun] p) with
  | AtSelect _ | Returned => True
  | _ => False
  end.
Proof.
  intros (Hw & Hb & Hp & _ & _).
  change (run [RelayRun; RelayRun] p)
    with (step_or_stay (step_or_stay p RelayRun) RelayRun).
  destruct (relay p) eqn:Hr.
  - replace (step_or_stay p RelayRun)
      with (set_relay (AtStartBlack true)
              (emit (EvWriteJSON cw (startMessage "white")) p))
      by (unfold step_or_stay, step, playChess_start; rewrite Hp, Hr, Hw; simpl;
          now rewrite and_then_running).
    unfold step_or_stay, step, playChess_start. simpl. rewrite Hp, Hb. simpl.
    now rewrite and_then_running.
  - replace (step_or_stay p RelayRun)
      with (set_relay (AtSelect turnWhite)
              (emit (EvWriteJSON cb (startMessage "black")) p))
      by (unfold step_or_stay, step, playChess_start; rewrite Hp, Hr, Hb; simpl;
          now rewrite and_then_running).
    unfold step_or_stay, step, playChess_start. simpl. now rewrite Hp.
  - unfold step_or_stay, step, playChess_start. rewrite Hp, Hr. rewrite Hp, Hr.
    now rewrite Hr.
  - unfold step_or_stay, step, playChess_start. rewrite Hp, Hr. rewrite Hp, Hr.
    now rewrite Hr.
Qed.

(** C4. The relay does not look at the required fields: a move of the
    side that holds the turn whose [to] is missing (so left empty by the
    decoding) is written to the other connection and the turn passes. *)
Theorem move_missing_to_is_forwarded :
  required_fields_ok move_missing_to = false
  /\ run [RelayRun; RelayRun; Read White (ReadOk move_missing_to); Comm White]
         (spawn (Some 0) (Some 1))
     = mkSession (Some 0) (Some 1) (AtSelect false) AtRead AtRead
         [EvWriteJSON 0 (startMessage "white");
          EvWriteJSON 1 (startMessage "black");
          EvReadJSON White (ReadOk move_missing_to);
          EvChan White move_missing_to;
          EvWriteJSON 1 move_missing_to]
         false.
Proof. split; reflexivity. Qed.

Lemma Read_enabled p s r c :
  panicked p = false -> reader s p = AtRead -> sessConn s p = Some c ->
  step (Read s r) p = Some (set_reader s (reader_after r) (emit (EvReadJSON s r) p)).
Proof.
  intros Hp Hs Hc. unfold step, forwardFromWebsocketToChannel_read.
  now rewrite Hp, Hs, Hc.
Qed.

(** C5. When the error message a reader publishes after a failed read
    is received, from either channel and whoever holds the turn,
    [playChess] returns without writing to a connection; from then on,
    whatever is scheduled, it stays returned and no [WriteJSON] is made. *)
Theorem disconnect_signal_ends_relay (p : Session) (s : Side) (t : bool) :
  panicked p = false ->
  relay p = AtSelect t ->
  reader s p = AtSendError ->
  exists p',
    step (Comm s) p = Some p'
    /\ chan s (log p') = chan s (log p) ++ [errorMessage]
    /\ relay p' = Returned
    /\ writes (log p') = writes (log p)
    /\ forall acts,
        relay (run acts p') = Returned
        /\ writes (log (run acts p')) = writes (log p).
Proof.
  intros Hp Hr Hs.
  assert (Ho : offers s p = Some (errorMessage, AtReturn))
    by (unfold offers; now rewrite Hs).
  eexists. split; [now apply (Comm_error p s errorMessage AtReturn t)|].
  simpl. autorewrite with session.
  rewrite chan_app, chan_one, writes_app, app_nil_r. autorewrite with session.
  repeat split; auto.
  - now apply after_return_run.
  - destruct (after_return_run
                (set_relay Returned (emit (EvChan s errorMessage) (set_reader s AtReturn p)))
                acts eq_refl) as (_ & Hw & _).
    rewrite Hw. simpl. autorewrite with session. now rewrite writes_app, app_nil_r.
Qed.

Lemma disconnect_signal_ends_relay_witness :
  let p := run [RelayRun; RelayRun; Read White (ReadOk e2e4); Comm White;
                Read White ReadErr] (spawn (Some 0) (Some 1)) in
  exists p',
    step (Comm White) p = Some p'
    /\ chan White (log p') = chan White (log p) ++ [errorMessage]
    /\ relay p' = Returned
    /\ writes (log p') = writes (log p)
    /\ forall acts,
        relay (run acts p') = Returned
        /\ writes (log (run acts p')) = writes (log p).
Proof.
  apply (disconnect_signal_ends_relay
           (run [RelayRun; RelayRun; Read White (ReadOk e2e4); Comm White;
                 Read White ReadErr] (spawn (Some 0) (Some 1)))
           White false); reflexivity.
Defined.

(** C9. Any message whose type is error ends the relay, from either
    channel and whoever holds the turn: also one a client wrote itself,
    which its reader reads like any message and publishes as it is. *)
Theorem any_error_message_ends_relay
    (p : Session) (s : Side) (t : bool) (m : Message) (c : Conn) :
  panicked p = false ->
  relay p = AtSelect t ->
  reader s p = AtRead ->
  sessConn s p = Some c ->
  Type_ m = "error" ->
  exists p1 p2,
    step (Read s (ReadOk m)) p = Some p1
    /\ reader s p1 = AtSend m
    /\ step (Comm s) p1 = Some p2
    /\ chan s (log p2) = chan s (log p) ++ [m]
    /\ relay p2 = Returned
    /\ writes (log p2) = writes (log p)
    /\ forall acts, relay (run acts p2) = Returned
                    /\ writes (log (run acts p2)) = writes (log p).
Proof.
  intros Hp Hr Hs Hc Hm.
  set (p1 := set_reader s (AtSend m) (emit (EvReadJSON s (ReadOk m)) p)).
  assert (Hp1 : panicked p1 = false)
    by (unfold p1; now autorewrite with session).
  assert (Hr1 : relay p1 = AtSelect t)
    by (unfold p1; now autorewrite with session).
  assert (Ho : offers s p1 = Some (m, AtRead)).
  { unfold offers, p1. now autorewrite with session. }
  set (p2 := set_relay Returned (emit (EvChan s m) (set_reader s AtRead p1))).
  assert (Hlog : log p2 = log p ++ [EvReadJSON s (ReadOk m); EvChan s m]).
  { unfold p2, p1. simpl. autorewrite with session. simpl.
    now rewrite <- app_assoc. }
  assert (Hw2 : writes (log p2) = writes (log p))
    by (rewrite Hlog, writes_app; apply app_nil_r).
  exists p1, p2.
  split; [now apply (Read_enabled p s (ReadOk m) c)|].
  split; [unfold p1; now autorewrite with session|].
  split; [apply (Comm_error p1 s m AtRead t); auto; now rewrite Hm|].
  split.
  { rewrite Hlog, chan_app. f_equal. unfold chan. simpl.
    now rewrite Side_eqb_refl. }
  split; [reflexivity|]. split; [exact Hw2|].
  intros acts. destruct (after_return_run p2 acts eq_refl) as (Hret & Hw & _).
  split; [exact Hret | congruence].
Qed.

Lemma any_error_message_ends_relay_witness :
  let p := run [RelayRun; RelayRun] (spawn (Some 0) (Some 1)) in
  exists p1 p2,
    step (Read Black (ReadOk client_error)) p = Some p1
    /\ reader Black p1 = AtSend client_error
    /\ step (Comm Black) p1 = Some p2
    /\ chan Black (log p2) = chan Black (log p) ++ [client_error]
    /\ relay p2 = Returned
    /\ writes (log p2) = writes (log p)
    /\ forall acts, relay (run acts p2) = Returned
                    /\ writes (log (run acts p2)) = writes (log p).
Proof.
  apply (any_error_message_ends_relay
           (run [RelayRun; RelayRun] (spawn (Some 0) (Some 1)))
           Black true client_error 1); reflexivity.
Defined.

Lemma Exit_enabled p s :
  panicked p = false -> reader s p = AtReturn ->
  step (Exit s) p = Some (Close (sessConn s p) (set_reader s Exited p)).
Proof.
  intros Hp Hs. unfold step, forwardFromWebsocketToChannel_return.
  now rewrite Hp, Hs.
Qed.

Lemma reader_inv_pending s p :
  reader_inv s p ->
  map published (reads s (log p)) = chan s (log p) ++ pending (reader s p).
Proof.
  unfold reader_inv. destruct (reader s p); simpl.
  - intros [_ ->]. now rewrite app_nil_r.
  - intros (before & -> & _ & ->). now rewrite map_app.
  - intros (before & -> & _ & ->). now rewrite map_app.
  - intros (before & -> & _ & ->). now rewrite map_app, app_nil_r.
  - intros (before & -> & _ & ->). now rewrite map_app, app_nil_r.
Qed.

(** C7, as stated, fails: the white connection fails, its reader
    publishes the error message and [playChess] returns; then the black
    connection fails. Its reader blocks in the send of its error message:
    whatever is scheduled afterwards, the channel of black has carried
    nothing and the reader has not gone on to its [return]. *)
Lemma second_failure_is_never_observed :
  let p := run [RelayRun; RelayRun; Read White ReadErr; Comm White;
                Read Black ReadErr] (spawn (Some 0) (Some 1)) in
  reads Black (log p) = [ReadErr]
  /\ relay p = Returned
  /\ forall acts,
      chan Black (log (run acts p)) = []
      /\ reader Black (run acts p) = AtSendError.
Proof.
  intros p. split; [reflexivity|]. split; [reflexivity|].
  intros acts. destruct (after_return_run p acts eq_refl) as (_ & _ & Hs).
  destruct (Hs Black) as [Hc Hrd]. split.
  - rewrite Hc. reflexivity.
  - now rewrite Hrd.
Qed.

(** C8, as the code has it. Every message the relay writes after the
    two start messages is a message the reader of the opposite side
    read, with its five fields as decoded, written to the other
    connection. On the wire it is the object rebuilt from these five
    fields, under the names and in the order of the struct, and the
    object tells the five fields apart: two messages written as the same
    object are the same message. *)
Theorem relay_passes_fields_unchanged
    (cw cb : Conn) (acts : list Action) (rest : list (Conn * Message))
    (c : Conn) (m : Message) :
  let p := run acts (spawn (Some cw) (Some cb)) in
  writes (log p) = start_writes cw cb ++ rest ->
  In (c, m) rest ->
  (exists s, c = conn_of cw cb (opposite s)
             /\ In (EvReadJSON s (ReadOk m)) (log p))
  /\ map fst (wire_of m) = ["type"; "color"; "from"; "to"; "promotion"]
  /\ map snd (wire_of m) = [Type_ m; Color m; From m; To m; Promotion m]
  /\ forall m', wire_of m' = wire_of m -> m' = m.
Proof.
  intros p Hw Hin. split; [|split; [reflexivity|split; [reflexivity|]]].
  - pose proof (relay_inv_run cw cb acts) as (_ & _ & _ & _ & Hrel).
    fold p in Hrel.
    assert (Hall : Forall (forwarded_from (log p) cw cb) rest).
    { destruct (relay p); simpl in Hrel.
      - rewrite Hrel in Hw. discriminate.
      - destruct Hrel as [_ Hrel]. rewrite Hrel in Hw. discriminate.
      - destruct Hrel as (rest' & H1 & _ & H3). rewrite H1 in Hw.
        unfold start_writes in Hw. now injection Hw as <-.
      - destruct Hrel as (rest' & H1 & H3). rewrite H1 in Hw.
        unfold start_writes in Hw. now injection Hw as <-. }
    rewrite Forall_forall in Hall. destruct (Hall _ Hin) as (s & H1 & H2 & _).
    now exists s.
  - intros [t' c' f' t'' p'] H. destruct m. unfold wire_of in H. simpl in H.
    now injection H as -> -> -> -> ->.
Qed.

Lemma relay_passes_fields_unchanged_witness :
  let p := run [RelayRun; RelayRun; Read White (ReadOk promotion_move); Comm White]
               (spawn (Some 0) (Some 1)) in
  (exists s, 1 = conn_of 0 1 (opposite s)
             /\ In (EvReadJSON s (ReadOk promotion_move)) (log p))
  /\ map fst (wire_of promotion_move) = ["type"; "color"; "from"; "to"; "promotion"]
  /\ map snd (wire_of promotion_move) = ["move"; "white"; "e7"; "e8"; "q"]
  /\ forall m', wire_of m' = wire_of promotion_move -> m' = promotion_move.
Proof.
  apply (relay_passes_fields_unchanged 0 1
           [RelayRun; RelayRun; Read White (ReadOk promotion_move); Comm White]
           [(1, promotion_move)] 1 promotion_move).
  - reflexivity.
  - simpl. now left.
Defined.

(** C8, as stated, fails: the frontend sends its move as an object with
    the members from, to, promotion, color, type, in this order. The
    relay writes the message decoded from it to the other connection
    with the same five values, but as the object type, color, from, to,
    promotion: not the text the client sent. No message at all is written
    as the client's object. *)
Lemma relayed_object_is_not_the_client_text :
  let p := run [RelayRun; RelayRun; Read White (ReadOk promotion_move); Comm White]
               (spawn (Some 0) (Some 1)) in
  (forall member, In member frontend_move <-> In member (wire_of promotion_move))
  /\ writes (log p) = start_writes 0 1 ++ [(1, promotion_move)]
  /\ wire_of promotion_move <> frontend_move
  /\ ~ (exists m, wire_of m = frontend_move).
Proof.
  intros p. split; [|split; [reflexivity|split]].
  - intros member. simpl. tauto.
  - discriminate.
  - intros [m Hm]. discriminate.
Qed.

(** * [playChess] and the loop function *)

Arguments arrivals : simpl never.
Arguments closes : simpl never.

Lemma arrivals_app l1 l2 : arrivals (l1 ++ l2) = arrivals l1 ++ arrivals l2.
Proof. apply flat_map_app. Qed.

Lemma closes_app l1 l2 : closes (l1 ++ l2) = closes l1 ++ closes l2.
Proof. apply flat_map_app. Qed.

Ltac log_simpl :=
  rewrite ?arrivals_app, ?writes_app, ?closes_app;
  repeat match goal with
         | |- context [arrivals [?e]] =>
             let v := eval cbv in (arrivals [e]) in change (arrivals [e]) with v
         | |- context [writes [?e]] =>
             let v := eval cbv in (writes [e]) in change (writes [e]) with v
         | |- context [closes [?e]] =>
             let v := eval cbv in (closes [e]) in change (closes [e]) with v
         end;
  rewrite ?app_nil_r.

Lemma playChess_loop_snoc received a :
  playChess_loop (received ++ [a]) = playChess_receive (playChess_loop received) a.
Proof. unfold playChess_loop. now rewrite fold_left_app. Qed.

Lemma loop_inv_step cw cb a p p' :
  relay_inv cw cb p -> loop_inv cw cb p -> step a p = Some p' -> loop_inv cw cb p'.
Proof.
  intros Inv L H. pose proof Inv as (Hw & Hb & Hp & Hrd & Hrel).
  unfold loop_inv in *.
  destruct a as [|s r|s|s].
  - apply step_RelayRun in H as (_ & [(Hr & ->)|(t & Hr & ->)]).
    + rewrite Hw. simpl. rewrite and_then_running by assumption. simpl.
      rewrite Hr in L. log_simpl. exact L.
    + rewrite Hb. simpl. rewrite and_then_running by assumption. simpl.
      rewrite Hr in L, Hrel. destruct Hrel as [-> Hws].
      exists []. log_simpl. rewrite L, Hws. now split.
  - apply step_Read in H as (_ & Hs & [(Hc & ->)|(c & Hc & ->)]).
    + exact L.
    + autorewrite with session. simpl. log_simpl. exact L.
  - apply step_Comm in H as (_ & m & next & t & Hoff & Hr & ->).
    rewrite playChess_case_eq by (simpl; autorewrite with session; assumption).
    autorewrite with session.
    rewrite (sessConn_relay_inv cw cb p) by assumption.
    rewrite Hr in L. destruct L as (fw & Hloop & Hws).
    destruct (Type_ m =? "error") eqn:Hm; [|destruct (holds_turn s t) eqn:Ht];
      simpl; autorewrite with session.
    + exists fw. log_simpl.
      rewrite playChess_loop_snoc, Hloop. unfold playChess_receive. simpl.
      now rewrite Hm.
    + exists (fw ++ [(opposite s, m)]). log_simpl.
      rewrite playChess_loop_snoc, Hloop. unfold playChess_receive.
      simpl. rewrite Hm, Ht. split; [reflexivity|].
      rewrite Hws, map_app, <- app_assoc. reflexivity.
    + rewrite Hr. exists fw. log_simpl.
      rewrite playChess_loop_snoc, Hloop. unfold playChess_receive. simpl.
      now rewrite Hm, Ht.
  - apply step_Exit in H as (_ & Hs & ->).
    rewrite (sessConn_relay_inv cw cb) by assumption.
    simpl. autorewrite with session. log_simpl. exact L.
Qed.

Lemma loop_inv_run cw cb acts :
  relay_inv cw cb (run acts (spawn (Some cw) (Some cb)))
  /\ loop_inv cw cb (run acts (spawn (Some cw) (Some cb))).
Proof.
  apply (run_invariant (fun p => relay_inv cw cb p /\ loop_inv cw cb p)).
  - intros a p p' [Inv L] H. split.
    + eapply relay_inv_step; eauto.
    + eapply loop_inv_step; eauto.
  - split; [apply relay_inv_spawn | reflexivity].
Qed.

(** X1. In a game between two connections, whatever the schedule, what
    [playChess] has written and where it stands are a function of the
    messages it received, in the order it received them: before the
    [select] it has received nothing; in the [select] and after its
    return, it has written the two start messages and then what the loop
    function writes on the received messages, and its turn is the one the
    loop function ends with (none once returned). *)
Theorem playChess_is_its_loop (cw cb : Conn) (acts : list Action) :
  let p := run acts (spawn (Some cw) (Some cb)) in
  let received := arrivals (log p) in
  match relay p with
  | AtStart => received = [] /\ writes (log p) = []
  | AtStartBlack _ =>
      received = [] /\ writes (log p) = [(cw, startMessage "white")]
  | AtSelect t =>
      fst (playChess_loop received) = Some t
      /\ writes (log p)
         = start_writes cw cb ++ map (deliver cw cb) (snd (playChess_loop received))
  | Returned =>
      fst (playChess_loop received) = None
      /\ writes (log p)
         = start_writes cw cb ++ map (deliver cw cb) (snd (playChess_loop received))
  end.
Proof.
  intros p received.
  destruct (loop_inv_run cw cb acts) as [(_ & _ & _ & _ & Hrel) L].
  fold p in Hrel, L. unfold loop_inv in L. fold received in L.
  destruct (relay p); simpl in Hrel.
  - now split.
  - split; [exact L | apply Hrel].
  - destruct L as (fw & -> & ->). now split.
  - destruct L as (fw & -> & ->). now split.
Qed.

(** ** The loop function *)

Lemma playChess_loop_alternates received :
  (forall t, fst (playChess_loop received) = Some t ->
             t = Nat.even (length (snd (playChess_loop received))))
  /\ (forall k s m, nth_error (snd (playChess_loop received)) k = Some (s, m) ->
                    s = receiver k).
Proof.
  induction received as [|a received [IHt IHk]] using rev_ind.
  - split.
    + intros t [= <-]. reflexivity.
    + intros [|k] s m H; discriminate.
  - rewrite playChess_loop_snoc. unfold playChess_receive.
    destruct (playChess_loop received) as [[t|] fw]; simpl in *; [|now split].
    destruct (Type_ (snd a) =? "error"); simpl; [split; [discriminate|exact IHk]|].
    destruct (holds_turn (fst a) t) eqn:Ht; simpl; [|now split].
    specialize (IHt t eq_refl). split.
    + intros t' [= <-]. now rewrite even_length_snoc, <- IHt.
    + intros k s m H.
      destruct (Nat.lt_ge_cases k (length fw)) as [Hk|Hk].
      * rewrite nth_error_app1 in H by assumption. eauto.
      * rewrite nth_error_app2 in H by assumption.
        destruct (k - length fw) as [|j] eqn:Hj; [|destruct j; discriminate].
        assert (k = length fw) as -> by lia.
        injection H as <- <-. unfold receiver. rewrite <- IHt.
        destruct a as [[] m], t; simpl in *; congruence.
Qed.

Lemma playChess_loop_returned received :
  match fst (playChess_loop received) with None => true | Some _ => false end
  = existsb is_error received.
Proof.
  induction received as [|a received IH] using rev_ind; [reflexivity|].
  rewrite playChess_loop_snoc, existsb_app. simpl. rewrite orb_false_r, <- IH.
  unfold playChess_receive, is_error.
  destruct (playChess_loop received) as [[t|] fw]; simpl; [|reflexivity].
  destruct (Type_ (snd a) =? "error"); simpl; [reflexivity|].
  now destruct (holds_turn (fst a) t).
Qed.

Lemma subseq_nil_l {A} (l : list A) : subseq [] l.
Proof. induction l; constructor; auto. Qed.

Lemma subseq_refl {A} (l : list A) : subseq l l.
Proof. induction l; [constructor | now apply subseq_take]. Qed.

Lemma subseq_app_r {A} (l1 l2 l : list A) : subseq l1 l2 -> subseq l1 (l2 ++ l).
Proof.
  induction 1; simpl.
  - apply subseq_nil_l.
  - now apply subseq_skip.
  - now apply subseq_take.
Qed.

Lemma subseq_snoc {A} (l1 l2 : list A) (x : A) :
  subseq l1 l2 -> subseq (l1 ++ [x]) (l2 ++ [x]).
Proof.
  induction 1; simpl.
  - apply subseq_take, subseq_nil.
  - now apply subseq_skip.
  - now apply subseq_take.
Qed.

Lemma of_side_app s l1 l2 : of_side s (l1 ++ l2) = of_side s l1 ++ of_side s l2.
Proof. unfold of_side. now rewrite filter_app, map_app. Qed.

Lemma playChess_loop_keeps_order s received :
  subseq (of_side s (snd (playChess_loop received))) (of_side (opposite s) received).
Proof.
  induction received as [|a received IH] using rev_ind; [constructor|].
  rewrite playChess_loop_snoc, of_side_app. unfold playChess_receive.
  destruct (playChess_loop received) as [[t|] fw]; simpl in *;
    [|now apply subseq_app_r].
  destruct (Type_ (snd a) =? "error"); simpl; [now apply subseq_app_r|].
  destruct (holds_turn (fst a) t); simpl; [|now apply subseq_app_r].
  rewrite of_side_app. unfold of_side at 2 4. simpl.
  replace (Side_eqb (opposite s) (fst a)) with (Side_eqb s (opposite (fst a)))
    by (destruct s, (fst a); reflexivity).
  destruct (Side_eqb s (opposite (fst a))); simpl.
  - now apply subseq_snoc.
  - now rewrite !app_nil_r.
Qed.

Lemma chan_arrivals s l : chan s l = of_side s (arrivals l).
Proof.
  induction l as [|e l IH]; [reflexivity|].
  change (e :: l) with ([e] ++ l). rewrite chan_app, arrivals_app, of_side_app, IH.
  f_equal. destruct e as [c m|s' r|s' m|c]; try reflexivity.
  unfold chan, arrivals, of_side. simpl. now destruct (Side_eqb s s').
Qed.

(** * What the relay writes, for every schedule *)

(** X2. The relayed messages go to the two connections in turn, black's
    first: after the two start messages, the [k]-th message written goes
    to black's connection when [k] is even and to white's when it is odd. *)
Theorem relayed_messages_alternate
    (cw cb : Conn) (acts : list Action) (k : nat) (c : Conn) (m : Message) :
  let p := run acts (spawn (Some cw) (Some cb)) in
  nth_error (writes (log p)) (2 + k) = Some (c, m) ->
  c = conn_of cw cb (receiver k).
Proof.
  intros p H.
  destruct (loop_inv_run cw cb acts) as [(_ & _ & _ & _ & Hrel) L].
  fold p in Hrel, L. unfold loop_inv in L.
  assert (Hfw : forall fw, playChess_loop (arrivals (log p)) = (fst (playChess_loop (arrivals (log p))), fw) ->
                           writes (log p) = start_writes cw cb ++ map (deliver cw cb) fw ->
                           c = conn_of cw cb (receiver k)).
  { intros fw Hloop Hws. rewrite Hws in H. simpl in H.
    rewrite nth_error_map in H.
    destruct (nth_error fw k) as [[s m']|] eqn:Hk; [|discriminate].
    injection H as <- _.
    destruct (playChess_loop_alternates (arrivals (log p))) as [_ Halt].
    rewrite Hloop in Halt. simpl in Halt. now rewrite (Halt k s m' Hk). }
  destruct (relay p); simpl in Hrel.
  - rewrite Hrel in H. discriminate.
  - destruct Hrel as [_ Hws]. rewrite Hws in H. destruct k; discriminate.
  - destruct L as (fw & Hloop & Hws). apply (Hfw fw); [now rewrite Hloop | exact Hws].
  - destruct L as (fw & Hloop & Hws). apply (Hfw fw); [now rewrite Hloop | exact Hws].
Qed.

Lemma relayed_messages_alternate_witness :
  nth_error (writes (log (run [RelayRun; RelayRun; Read White (ReadOk e2e4); Comm White;
                               Read Black (ReadOk promotion_move); Comm Black]
                              (spawn (Some 7) (Some 9)))))
            (2 + 1)
  = Some (7, promotion_move)
  /\ 7 = conn_of 7 9 (receiver 1).
Proof.
  split; [reflexivity|].
  apply (relayed_messages_alternate 7 9
           [RelayRun; RelayRun; Read White (ReadOk e2e4); Comm White;
            Read Black (ReadOk promotion_move); Comm Black]
           1 7 promotion_move).
  reflexivity.
Defined.

(** X3. No message of the error kind is ever written to a connection:
    when one side's connection fails, or a client sends an error message,
    the other client is not told. *)
Theorem no_error_message_is_written (cw cb : Conn) (acts : list Action) :
  Forall (fun w => (Type_ (snd w) =? "error") = false)
         (writes (log (run acts (spawn (Some cw) (Some cb))))).
Proof.
  destruct (relay_inv_run cw cb acts) as (_ & _ & _ & _ & Hrel).
  assert (Hfw : forall l rest, Forall (forwarded_from l cw cb) rest ->
                               Forall (fun w => (Type_ (snd w) =? "error") = false) rest).
  { intros l rest. apply Forall_impl. now intros w (s & _ & _ & Hm). }
  destruct (relay (run acts (spawn (Some cw) (Some cb)))); simpl in Hrel.
  - rewrite Hrel. constructor.
  - destruct Hrel as [_ ->]. repeat constructor.
  - destruct Hrel as (rest & -> & _ & H). repeat constructor. eauto.
  - destruct Hrel as (rest & -> & H). repeat constructor. eauto.
Qed.

Lemma written_to_delivered cw cb s fw :
  cw <> cb ->
  map snd (filter (fun w => Nat.eqb (fst w) (conn_of cw cb s)) (map (deliver cw cb) fw))
  = of_side s fw.
Proof.
  intros Hne. unfold of_side. induction fw as [|[s' m] fw IH]; [reflexivity|].
  simpl.
  replace (conn_of cw cb s' =? conn_of cw cb s)%nat with (Side_eqb s s').
  - destruct (Side_eqb s s'); simpl; now rewrite IH.
  - symmetry. destruct s, s'; simpl;
      try apply Nat.eqb_refl; apply Nat.eqb_neq; congruence.
Qed.

Lemma written_to_after_start cw cb s l fw :
  cw <> cb ->
  writes l = start_writes cw cb ++ map (deliver cw cb) fw ->
  tl (written_to (conn_of cw cb s) l) = of_side s fw.
Proof.
  intros Hne Hws. unfold written_to. rewrite Hws, filter_app, map_app.
  rewrite written_to_delivered by assumption.
  unfold start_writes. simpl.
  destruct s; simpl; rewrite Nat.eqb_refl.
  - apply Nat.eqb_neq in Hne. rewrite Nat.eqb_sym in Hne. now rewrite Hne.
  - apply Nat.eqb_neq in Hne. now rewrite Hne.
Qed.

(** X4. Between two distinct connections, what a connection is sent
    after its start message is, in the same order, part of what the
    channel of the other side carried, and so part of what the other
    client sent: the relay drops messages but never reorders, repeats or
    makes up one. *)
Theorem relay_keeps_order (cw cb : Conn) (acts : list Action) (s : Side) :
  let p := run acts (spawn (Some cw) (Some cb)) in
  cw <> cb ->
  subseq (tl (written_to (conn_of cw cb s) (log p))) (chan (opposite s) (log p))
  /\ subseq (tl (written_to (conn_of cw cb s) (log p)))
            (map published (reads (opposite s) (log p))).
Proof.
  intros p Hne.
  assert (H : subseq (tl (written_to (conn_of cw cb s) (log p)))
                     (chan (opposite s) (log p))).
  { destruct (loop_inv_run cw cb acts) as [(_ & _ & _ & _ & Hrel) L].
    fold p in Hrel, L. unfold loop_inv in L.
    assert (Hfw : forall fw, fw = snd (playChess_loop (arrivals (log p))) ->
                             writes (log p) = start_writes cw cb ++ map (deliver cw cb) fw ->
                             subseq (tl (written_to (conn_of cw cb s) (log p)))
                                    (chan (opposite s) (log p))).
    { intros fw -> Hws. rewrite (written_to_after_start cw cb s _ _ Hne Hws).
      rewrite chan_arrivals. apply playChess_loop_keeps_order. }
    destruct (relay p); simpl in Hrel.
    - unfold written_to. rewrite Hrel. apply subseq_nil_l.
    - destruct Hrel as [_ Hws]. unfold written_to. rewrite Hws. simpl.
      destruct (cw =? conn_of cw cb s)%nat; apply subseq_nil_l.
    - destruct L as (fw & Hloop & Hws). apply (Hfw fw); [now rewrite Hloop | exact Hws].
    - destruct L as (fw & Hloop & Hws). apply (Hfw fw); [now rewrite Hloop | exact Hws]. }
  split; [exact H|].
  rewrite (reader_inv_pending (opposite s) p) by apply reader_inv_run.
  now apply subseq_app_r.
Qed.

Lemma relay_keeps_order_witness :
  let p := run [RelayRun; RelayRun; Read Black (ReadOk e2e4); Comm Black;
                Read White (ReadOk e2e4); Comm White; Read White (ReadOk promotion_move)]
               (spawn (Some 0) (Some 1)) in
  subseq (tl (written_to (conn_of 0 1 Black) (log p))) (chan (opposite Black) (log p))
  /\ subseq (tl (written_to (conn_of 0 1 Black) (log p)))
            (map published (reads (opposite Black) (log p))).
Proof.
  apply (relay_keeps_order 0 1
           [RelayRun; RelayRun; Read Black (ReadOk e2e4); Comm Black;
            Read White (ReadOk e2e4); Comm White; Read White (ReadOk promotion_move)]
           Black).
  discriminate.
Defined.

(** X5. [playChess] returns if and only if it has received a message of
    the error kind: no other message, in turn or out of turn, ends the
    relay, and one error message from either side always does. *)
Theorem playChess_returns_only_on_error (cw cb : Conn) (acts : list Action) :
  let p := run acts (spawn (Some cw) (Some cb)) in
  existsb is_error (arrivals (log p))
  = match relay p with Returned => true | _ => false end.
Proof.
  intros p. destruct (loop_inv_run cw cb acts) as [_ L].
  fold p in L. unfold loop_inv in L.
  rewrite <- playChess_loop_returned.
  destruct (relay p).
  - now rewrite L.
  - now rewrite L.
  - destruct L as (fw & -> & _). reflexivity.
  - destruct L as (fw & -> & _). reflexivity.
Qed.

(** * Nil pointers *)

Lemma pointers_WriteJSON ws m p :
  sessWhite (WriteJSON ws m p) = sessWhite p
  /\ sessBlack (WriteJSON ws m p) = sessBlack p.
Proof. now destruct ws. Qed.

Lemma pointers_and_then r p :
  sessWhite (and_then (set_relay r) p) = sessWhite p
  /\ sessBlack (and_then (set_relay r) p) = sessBlack p.
Proof. unfold and_then. now destruct (panicked p). Qed.

Lemma pointers_playChess_case s m t p :
  sessWhite (playChess_case s m t p) = sessWhite p
  /\ sessBlack (playChess_case s m t p) = sessBlack p.
Proof.
  unfold playChess_case.
  destruct s, (Type_ m =? "error"), t; simpl; try (split; reflexivity);
    (split;
     [rewrite (proj1 (pointers_and_then _ _)); apply pointers_WriteJSON
     |rewrite (proj2 (pointers_and_then _ _)); apply pointers_WriteJSON]).
Qed.

Lemma step_keeps_pointers a p p' :
  step a p = Some p' -> sessWhite p' = sessWhite p /\ sessBlack p' = sessBlack p.
Proof.
  intros H. destruct a as [|s r|s|s].
  - apply step_RelayRun in H as (_ & [(_ & ->)|(t & _ & ->)]);
      (split;
       [rewrite (proj1 (pointers_and_then _ _)); apply pointers_WriteJSON
       |rewrite (proj2 (pointers_and_then _ _)); apply pointers_WriteJSON]).
  - apply step_Read in H as (_ & _ & [(_ & ->)|(c & _ & ->)]);
      [now split | now autorewrite with session].
  - apply step_Comm in H as (_ & m & next & t & _ & _ & ->).
    destruct (pointers_playChess_case s m t (emit (EvChan s m) (set_reader s next p)))
      as [-> ->].
    simpl. now autorewrite with session.
  - apply step_Exit in H as (_ & _ & ->). unfold Close.
    destruct (sessConn s p); simpl; now autorewrite with session.
Qed.

Lemma run_panicked acts p : panicked p = true -> run acts p = p.
Proof.
  intros Hp. induction acts as [|a acts IH]; [reflexivity|].
  change (run (a :: acts) p) with (run acts (step_or_stay p a)).
  replace (step_or_stay p a) with p
    by (unfold step_or_stay, step; now rewrite Hp).
  exact IH.
Qed.

Lemma nil_inv_step a p p' : nil_inv p -> step a p = Some p' -> nil_inv p'.
Proof.
  intros (Hnil & Harr & Hcl & Hrd & Hrel) H. unfold nil_inv.
  destruct a as [|s r|s|s].
  - apply step_RelayRun in H as (Hp & [(Hr & ->)|(t & Hr & ->)]); rewrite Hr in Hrel.
    + destruct (sessWhite p) as [c|] eqn:Hw; simpl.
      * rewrite and_then_running by assumption. simpl. log_simpl.
        rewrite Hw, Hrel. destruct Hnil as [|Hb]; [discriminate|].
        repeat split; eauto.
      * rewrite Hw, Hr. repeat split; auto.
    + destruct Hrel as (Hb & c & Hw & Hws). rewrite Hb. simpl.
      rewrite Hb, Hr. repeat split; eauto.
  - apply step_Read in H as (_ & Hs & [(Hc & ->)|(c & Hc & ->)]).
    + simpl. repeat split; auto.
    + autorewrite with session. simpl. log_simpl. repeat split; auto.
      intros s'. autorewrite with session.
      destruct (Side_eqb s s'); [destruct r; discriminate | apply Hrd].
  - apply step_Comm in H as (_ & m & next & t & _ & Hr & _).
    rewrite Hr in Hrel. contradiction.
  - apply step_Exit in H as (_ & Hs & _). now apply Hrd in Hs.
Qed.

Lemma nil_inv_run w b acts :
  w = None \/ b = None -> nil_inv (run acts (spawn w b)).
Proof.
  intros Hnil. apply run_invariant.
  - intros a p p'. apply nil_inv_step.
  - unfold nil_inv, spawn. simpl. repeat split; auto. now intros [].
Qed.

Lemma nil_relay_panics p :
  nil_inv p -> panicked (run [RelayRun; RelayRun] p) = true.
Proof.
  intros (Hnil & _ & _ & _ & Hrel).
  destruct (panicked p) eqn:Hp; [now rewrite run_panicked|].
  change (run [RelayRun; RelayRun] p)
    with (step_or_stay (step_or_stay p RelayRun) RelayRun).
  destruct (relay p) eqn:Hr; try contradiction.
  - destruct (sessWhite p) as [c|] eqn:Hw.
    + destruct Hnil as [|Hb]; [discriminate|].
      replace (step_or_stay p RelayRun)
        with (set_relay (AtStartBlack true)
                (emit (EvWriteJSON c (startMessage "white")) p))
        by (unfold step_or_stay, step, playChess_start; rewrite Hp, Hr, Hw; simpl;
            now rewrite and_then_running).
      unfold step_or_stay, step, playChess_start. simpl. now rewrite Hp, Hb.
    + replace (step_or_stay p RelayRun) with (panic p)
        by (unfold step_or_stay, step, playChess_start; now rewrite Hp, Hr, Hw).
      reflexivity.
  - destruct Hrel as (Hb & _).
    replace (step_or_stay p RelayRun) with (panic p)
      by (unfold step_or_stay, step, playChess_start; now rewrite Hp, Hr, Hb).
    reflexivity.
Qed.

(** X6. A game panics only if one of its two pointers is nil: between
    two connections no schedule makes a goroutine call a nil pointer. *)
Theorem game_panics_only_on_nil (w b : ConnPtr) (acts : list Action) :
  panicked (run acts (spawn w b)) = true -> w = None \/ b = None.
Proof.
  destruct w as [cw|]; [|now left]. destruct b as [cb|]; [|now right].
  destruct (relay_inv_run cw cb acts) as (_ & _ & Hp & _). congruence.
Qed.

Lemma game_panics_only_on_nil_witness :
  @None Conn = None \/ Some 1 = None.
Proof.
  apply (game_panics_only_on_nil None (Some 1) [Read Black ReadErr; RelayRun]).
  reflexivity.
Defined.

(** X7. [wsHandler] goes on with a nil pointer when the upgrade failed,
    and the game it starts for two arrivals holds them as they came. In
    a game with a nil pointer nothing is ever received by [playChess],
    relayed or closed, whatever the schedule: the only message that can
    be written is white's start message, and the process panics as soon
    as [playChess] has been scheduled for its two first statements. *)
Theorem nil_game_never_relays (w b : ConnPtr) (acts : list Action) :
  w = None \/ b = None ->
  let p := run acts (spawn w b) in
  sessions (serve [w; b] initServer) = [spawn w b]
  /\ arrivals (log p) = []
  /\ closes (log p) = []
  /\ (writes (log p) = []
      \/ exists c, w = Some c /\ writes (log p) = [(c, startMessage "white")])
  /\ panicked (run (acts ++ [RelayRun; RelayRun]) (spawn w b)) = true.
Proof.
  intros Hnil p. pose proof (nil_inv_run w b acts Hnil) as Inv. fold p in Inv.
  split; [reflexivity|].
  pose proof Inv as (_ & Harr & Hcl & _ & Hrel).
  split; [exact Harr|]. split; [exact Hcl|]. split.
  - assert (Hw : sessWhite p = w).
    { unfold p. apply (run_invariant (fun q => sessWhite q = w)); [|reflexivity].
      intros a q q' Hq H. now rewrite (proj1 (step_keeps_pointers a q q' H)). }
    destruct (relay p); try contradiction; [now left|].
    destruct Hrel as (_ & c & Hc & Hws). right. exists c. split; congruence.
  - rewrite run_app. now apply nil_relay_panics.
Qed.

Lemma nil_game_never_relays_witness :
  let p := run [RelayRun; Read Black ReadErr] (spawn (Some 0) None) in
  sessions (serve [Some 0; None] initServer) = [spawn (Some 0) None]
  /\ arrivals (log p) = []
  /\ closes (log p) = []
  /\ (writes (log p) = []
      \/ exists c, Some 0 = Some c /\ writes (log p) = [(c, startMessage "white")])
  /\ panicked (run ([RelayRun; Read Black ReadErr] ++ [RelayRun; RelayRun])
                   (spawn (Some 0) None)) = true.
Proof.
  apply (nil_game_never_relays (Some 0) None [RelayRun; Read Black ReadErr]).
  now right.
Defined.

(** * Closing *)

Lemma close_inv_step cw cb a p p' :
  relay_inv cw cb p -> close_inv cw cb p -> step a p = Some p' -> close_inv cw cb p'.
Proof.
  intros Inv [Hlen Hin] H. pose proof Inv as (Hw & Hb & Hp & _ & _).
  assert (Hkeep : forall s rd, reader s p <> Exited -> rd <> Exited ->
            forall l, closes l = closes (log p) ->
            forall q, log q = l -> (forall s', reader s' q = if Side_eqb s s' then rd else reader s' p) ->
            close_inv cw cb q).
  { intros s rd Hs Hrd l Hl q Hq Hq'. unfold close_inv. rewrite Hq, Hl, !Hq'. split.
    - assert (H0 : forall rd', rd' <> Exited -> exited rd' = 0)
        by (intros []; simpl; congruence).
      rewrite Hlen. apply H0 in Hs, Hrd.
      destruct s; cbn [Side_eqb]; rewrite Hs, Hrd; reflexivity.
    - intros c Hc. destruct (Hin c Hc) as (s' & -> & Hs'). exists s'. split; [reflexivity|].
      rewrite Hq'. destruct (Side_eqb s s') eqn:E; [|exact Hs'].
      apply Side_eqb_eq in E as ->. contradiction. }
  destruct a as [|s r|s|s].
  - apply step_RelayRun in H as (_ & [(Hr & ->)|(t & Hr & ->)]).
    + rewrite Hw. simpl. rewrite and_then_running by assumption.
      unfold close_inv. simpl. log_simpl. now split.
    + rewrite Hb. simpl. rewrite and_then_running by assumption.
      unfold close_inv. simpl. log_simpl. now split.
  - apply step_Read in H as (_ & Hs & [(Hc & ->)|(c & Hc & ->)]).
    + now split.
    + apply (Hkeep s (reader_after r)) with (l := log p ++ [EvReadJSON s r]).
      * congruence.
      * destruct r; discriminate.
      * now log_simpl.
      * now autorewrite with session.
      * intros s'. now autorewrite with session.
  - apply step_Comm in H as (_ & m & next & t & Hoff & Hr & ->).
    rewrite playChess_case_eq by (simpl; autorewrite with session; assumption).
    autorewrite with session. rewrite (sessConn_relay_inv cw cb p) by assumption.
    assert (Hs : reader s p <> Exited /\ next <> Exited).
    { apply offers_inv in Hoff as [(Hs & ->)|(Hs & _ & ->)]; split; congruence. }
    destruct Hs as [Hs Hnext].
    destruct (Type_ m =? "error"); [|destruct (holds_turn s t)].
    + apply (Hkeep s next Hs Hnext) with (l := log p ++ [EvChan s m]).
      * now log_simpl.
      * simpl. now autorewrite with session.
      * intros s'. now autorewrite with session.
    + apply (Hkeep s next Hs Hnext)
        with (l := (log p ++ [EvChan s m]) ++ [EvWriteJSON (conn_of cw cb (opposite s)) m]).
      * now log_simpl.
      * simpl. now autorewrite with session.
      * intros s'. now autorewrite with session.
    + apply (Hkeep s next Hs Hnext) with (l := log p ++ [EvChan s m]).
      * now log_simpl.
      * simpl. now autorewrite with session.
      * intros s'. now autorewrite with session.
  - apply step_Exit in H as (_ & Hs & ->).
    rewrite (sessConn_relay_inv cw cb) by assumption.
    unfold close_inv. simpl. autorewrite with session. log_simpl. split.
    + rewrite length_app, Hlen. simpl. autorewrite with session.
      destruct s; simpl in *; rewrite Hs; simpl; lia.
    + intros c Hc. apply in_app_or in Hc as [Hc|[<-|[]]].
      * destruct (Hin c Hc) as (s' & -> & Hs'). exists s'. split; [reflexivity|].
        autorewrite with session. now destruct (Side_eqb s s').
      * exists s. split; [reflexivity|]. now autorewrite with session.
Qed.

Lemma close_inv_run cw cb acts :
  close_inv cw cb (run acts (spawn (Some cw) (Some cb))).
Proof.
  apply (run_invariant (fun p => relay_inv cw cb p /\ close_inv cw cb p)).
  - intros a p p' [Inv C] H. split.
    + eapply relay_inv_step; eauto.
    + eapply close_inv_step; eauto.
  - split; [apply relay_inv_spawn|]. split; [reflexivity|]. intros c [].
Qed.

(** X8. A connection is closed only by its reader when it exits, once:
    the number of [Close] calls is the number of readers that have
    exited, and each closed connection is the one of an exited reader,
    whose last read failed and whose error message was received by
    [playChess] after every message it had read. *)
Theorem connections_closed_by_exited_readers (cw cb : Conn) (acts : list Action) :
  let p := run acts (spawn (Some cw) (Some cb)) in
  length (closes (log p)) = exited (reader White p) + exited (reader Black p)
  /\ forall c, In c (closes (log p)) ->
       exists s before,
         c = conn_of cw cb s /\ reader s p = Exited
         /\ reads s (log p) = before ++ [ReadErr]
         /\ chan s (log p) = map published before ++ [errorMessage].
Proof.
  intros p. destruct (close_inv_run cw cb acts) as [Hlen Hin]. fold p in Hlen, Hin.
  split; [exact Hlen|].
  intros c Hc. destruct (Hin c Hc) as (s & -> & Hs).
  pose proof (reader_inv_run s (Some cw) (Some cb) acts) as Hrd. fold p in Hrd.
  unfold reader_inv in Hrd. rewrite Hs in Hrd.
  destruct Hrd as (before & Hrs & _ & Hch). exists s, before. auto.
Qed.

Lemma connections_closed_by_exited_readers_witness :
  let p := run [RelayRun; RelayRun; Read White (ReadOk e2e4); Comm White;
                Read White ReadErr; Comm White; Exit White]
               (spawn (Some 0) (Some 1)) in
  exists s before,
    0 = conn_of 0 1 s /\ reader s p = Exited
    /\ reads s (log p) = before ++ [ReadErr]
    /\ chan s (log p) = map published before ++ [errorMessage].
Proof.
  apply (proj2 (connections_closed_by_exited_readers 0 1
           [RelayRun; RelayRun; Read White (ReadOk e2e4); Comm White;
            Read White ReadErr; Comm White; Exit White]) 0).
  simpl. now left.
Defined.

(** X9. Between two distinct connections, a connection none of whose
    reads has failed is never closed by the server, whatever happens on
    the other side: when one player is gone, the other's connection is
    left open. *)
Theorem connection_without_failure_stays_open
    (cw cb : Conn) (acts : list Action) (s : Side) :
  let p := run acts (spawn (Some cw) (Some cb)) in
  cw <> cb ->
  forallb is_ok (reads s (log p)) = true ->
  ~ In (conn_of cw cb s) (closes (log p)).
Proof.
  intros p Hne Hok Hc.
  destruct (close_inv_run cw cb acts) as [_ Hin]. fold p in Hin.
  destruct (Hin _ Hc) as (s' & Heq & Hs').
  assert (s' = s) as -> by (destruct s, s'; simpl in Heq; congruence).
  pose proof (reader_inv_run s (Some cw) (Some cb) acts) as Hrd. fold p in Hrd.
  unfold reader_inv in Hrd. rewrite Hs' in Hrd.
  destruct Hrd as (before & Hrs & _). rewrite Hrs, forallb_app in Hok.
  simpl in Hok. now rewrite andb_false_r in Hok.
Qed.

Lemma connection_without_failure_stays_open_witness :
  ~ In (conn_of 0 1 Black)
       (closes (log (run [RelayRun; RelayRun; Read White ReadErr; Comm White;
                          Exit White; Read Black (ReadOk e2e4); Exit Black]
                         (spawn (Some 0) (Some 1))))).
Proof.
  apply (connection_without_failure_stays_open 0 1
           [RelayRun; RelayRun; Read White ReadErr; Comm White;
            Exit White; Read Black (ReadOk e2e4); Exit Black] Black).
  - discriminate.
  - reflexivity.
Defined.

(** * The matchmaker and [Join], composed *)

Lemma pair_up_places_all (n : nat) :
  forall arrivals,
    length arrivals <= n ->
    flat_map (fun wb => [fst wb; snd wb]) (pair_up arrivals)
    ++ match left_over arrivals with Some ws => [ws] | None => [] end
    = arrivals
    /\ length (pair_up arrivals) = Nat.div2 (length arrivals).
Proof.
  induction n as [|n IH]; intros arrivals Hlen.
  - destruct arrivals; [now split | simpl in Hlen; lia].
  - destruct arrivals as [|first [|second rest]]; [now split | now split |].
    destruct (IH rest) as [Hall Hn]; [simpl in Hlen; lia|].
    simpl. now rewrite Hall, Hn.
Qed.

Lemma members_spawned (pairs : list (ConnPtr * ConnPtr)) :
  flat_map members (map (fun wb => spawn (fst wb) (snd wb)) pairs)
  = flat_map (fun wb => [fst wb; snd wb]) pairs.
Proof.
  induction pairs as [|wb pairs IH]; [reflexivity|]. simpl. now rewrite IH.
Qed.

Lemma every_two_placed (incoming : list ConnPtr) :
  flat_map members (sessions (serve incoming initServer))
  ++ waiting (serve incoming initServer) = incoming
  /\ length (sessions (serve incoming initServer)) = Nat.div2 (length incoming).
Proof.
  unfold initServer. rewrite serve_from_idle.
  destruct (pair_up_places_all (length incoming) incoming (le_n _)) as [Hall Hn].
  unfold waiting. simpl. rewrite members_spawned, length_map. split; [|exact Hn].
  rewrite <- Hall at 3. f_equal. now destruct (left_over incoming).
Qed.

(** X10. After any arrivals, handled one after the other, the pointers
    of the games started, game by game and white before black, followed
    by the white of the open game, are the arrivals in the order they
    came: no arrival is dropped, none is in two games, and the number of
    games started is half the number of arrivals. *)
Theorem every_arrival_is_placed_once (incoming : list ConnPtr) :
  let srv := serve incoming initServer in
  flat_map members (sessions srv) ++ waiting srv = incoming
  /\ length (sessions srv) = Nat.div2 (length incoming).
Proof.
  intros srv. apply every_two_placed.
Qed.

(** X11. A game is joined at most once by a connection: after a [Join]
    with a connection that returned nil, every further [Join] on the game
    returns [ErrCannotJoinStartedGame] and changes neither the game nor
    the goroutines. *)
Theorem Join_only_once
    (g : ChessGame) (c : Conn) (rt : Runtime) (g' : ChessGame) (rt' : Runtime) :
  Join g (Some c) rt = (g', rt', None) ->
  forall ws rt2, Join g' ws rt2 = (g', rt2, Some ErrCannotJoinStartedGame).
Proof.
  unfold Join. destruct (blackWebsocket g); [discriminate|].
  intros [= <- _] ws rt2. reflexivity.
Qed.

Lemma Join_only_once_witness :
  Join (mkChessGame (Some 0) (Some 1)) (Some 2) [spawn (Some 0) (Some 1)]
  = (mkChessGame (Some 0) (Some 1), [spawn (Some 0) (Some 1)],
     Some ErrCannotJoinStartedGame).
Proof.
  apply (Join_only_once (NewChessGame (Some 0)) 1 [] _ [spawn (Some 0) (Some 1)]
           eq_refl (Some 2) [spawn (Some 0) (Some 1)]).
Defined.

(** X12. [Join] tells a joined game by its black pointer alone, so a
    [Join] with a nil pointer returns nil and starts the three goroutines
    but leaves the game as it was: the next [Join] succeeds again and
    starts three more goroutines on the same white connection. *)
Theorem Join_nil_leaves_game_open
    (g : ChessGame) (rt : Runtime) (g' : ChessGame) (rt' : Runtime) :
  Join g None rt = (g', rt', None) ->
  g' = g
  /\ rt' = rt ++ [spawn (whiteWebsocket g) None]
  /\ forall ws rt2,
      Join g' ws rt2
      = (mkChessGame (whiteWebsocket g) ws,
         rt2 ++ [spawn (whiteWebsocket g) ws], None).
Proof.
  unfold Join. destruct g as [w b]. simpl.
  destruct b; [discriminate|]. intros [= <- <-]. auto.
Qed.

Lemma Join_nil_leaves_game_open_witness :
  mkChessGame (Some 0) None = NewChessGame (Some 0)
  /\ [spawn (Some 0) None] = [] ++ [spawn (whiteWebsocket (NewChessGame (Some 0))) None]
  /\ forall ws rt2,
      Join (mkChessGame (Some 0) None) ws rt2
      = (mkChessGame (whiteWebsocket (NewChessGame (Some 0))) ws,
         rt2 ++ [spawn (whiteWebsocket (NewChessGame (Some 0))) ws], None).
Proof.
  apply (Join_nil_leaves_game_open (NewChessGame (Some 0)) []).
  reflexivity.
Defined.

(** * A game played in turn *)

Lemma in_turn_snoc received a :
  in_turn (received ++ [a]) ->
  in_turn received
  /\ fst a = opposite (receiver (length received))
  /\ (Type_ (snd a) =? "error") = false.
Proof.
  intros H. split.
  - intros k s m Hk. apply H. rewrite nth_error_app1; [exact Hk|].
    apply nth_error_Some. congruence.
  - destruct a as [s m]. apply (H (length received)).
    now rewrite nth_error_app2, Nat.sub_diag by lia.
Qed.

Lemma playChess_loop_in_turn received :
  in_turn received ->
  playChess_loop received
  = (Some (Nat.even (length received)), map pass_on received).
Proof.
  induction received as [|a received IH] using rev_ind; [reflexivity|].
  intros H. apply in_turn_snoc in H as (H & Hs & Hm).
  rewrite playChess_loop_snoc, (IH H), even_length_snoc, map_app.
  unfold playChess_receive. simpl.
  change (pass_on a) with (opposite (fst a), snd a).
  rewrite Hm, Hs. unfold receiver.
  now destruct (Nat.even (length received)).
Qed.

(** X13. When the messages [playChess] has received came in turn (white,
    black, white, ...) and none is of the error kind, every one of them
    was relayed: after the two start messages the [WriteJSON] calls are
    the received messages, each to the other side's connection, in the
    order received, and the turn is white's when their number is even. *)
Theorem moves_in_turn_are_all_relayed
    (cw cb : Conn) (acts : list Action) (t : bool) :
  let p := run acts (spawn (Some cw) (Some cb)) in
  relay p = AtSelect t ->
  in_turn (arrivals (log p)) ->
  writes (log p)
  = start_writes cw cb
    ++ map (fun a => (conn_of cw cb (opposite (fst a)), snd a)) (arrivals (log p))
  /\ t = Nat.even (length (arrivals (log p))).
Proof.
  intros p Hr Hin. destruct (loop_inv_run cw cb acts) as [_ L].
  fold p in L. unfold loop_inv in L. rewrite Hr in L.
  destruct L as (fw & Hloop & Hws).
  rewrite (playChess_loop_in_turn _ Hin) in Hloop. injection Hloop as Ht <-.
  split; [|now symmetry]. rewrite Hws, map_map. reflexivity.
Qed.

Lemma moves_in_turn_are_all_relayed_witness :
  let p := run [RelayRun; RelayRun; Read White (ReadOk e2e4); Read Black (ReadOk promotion_move);
                Comm White; Comm Black] (spawn (Some 0) (Some 1)) in
  writes (log p)
  = start_writes 0 1
    ++ map (fun a => (conn_of 0 1 (opposite (fst a)), snd a)) (arrivals (log p))
  /\ true = Nat.even (length (arrivals (log p))).
Proof.
  apply (moves_in_turn_are_all_relayed 0 1
           [RelayRun; RelayRun; Read White (ReadOk e2e4);
            Read Black (ReadOk promotion_move); Comm White; Comm Black] true).
  - reflexivity.
  - intros [|[|k]] s m H; try (destruct k; discriminate);
      injection H as <- <-; now split.
Defined.

(** X14. When the arrivals are distinct, so are the two pointers of
    every game [wsHandler] starts: a game never has the same connection
    on both sides. *)
Theorem started_games_have_two_connections (incoming : list ConnPtr) (p : Session) :
  NoDup incoming ->
  In p (sessions (serve incoming initServer)) ->
  sessWhite p <> sessBlack p.
Proof.
  intros Hnd Hin.
  destruct (every_two_placed incoming) as [Hall _].
  rewrite <- Hall in Hnd. apply NoDup_app_remove_r in Hnd.
  apply in_split in Hin as (l1 & l2 & Hs). rewrite Hs in Hnd.
  rewrite flat_map_app in Hnd. apply NoDup_app_remove_l in Hnd.
  simpl in Hnd. inversion Hnd as [|x l Hx _]. subst.
  intros Heq. apply Hx. left. now symmetry.
Qed.

Lemma started_games_have_two_connections_witness :
  sessWhite (spawn (Some 2) (Some 3)) <> sessBlack (spawn (Some 2) (Some 3)).
Proof.
  apply (started_games_have_two_connections
           [Some 0; Some 1; Some 2; Some 3; Some 4]).
  - repeat constructor; simpl; intuition discriminate.
  - simpl. auto.
Defined.

(** * The start messages *)

(** C3, as the code has it. [Join] starts [playChess] at its first
    statement, and the first two things [playChess] does are its two
    start messages: type start and colour white to the connection that
    came first, then type start and colour black to the one that joined.
    Whatever the schedule, the [WriteJSON] calls made so far begin with
    these two, once each, and every later call relays to the other side
    a message a reader read from its client: nothing is relayed before
    both are sent, and a further message of type start is written only
    if a client sent one. Both are sent as soon as [playChess] has run
    two statements. *)
Theorem server_start_messages_sent_first (cw cb : Conn) (acts : list Action) :
  let p := run acts (spawn (Some cw) (Some cb)) in
  Join (NewChessGame (Some cw)) (Some cb) []
  = (mkChessGame (Some cw) (Some cb), [spawn (Some cw) (Some cb)], None)
  /\ log (run [RelayRun; RelayRun] (spawn (Some cw) (Some cb)))
     = [EvWriteJSON cw (mkMessage "start" "white" "" "" "");
        EvWriteJSON cb (mkMessage "start" "black" "" "" "")]
  /\ match relay p with
     | AtStart => writes (log p) = []
     | AtStartBlack _ =>
         writes (log p) = [(cw, mkMessage "start" "white" "" "" "")]
     | AtSelect _ | Returned =>
         exists rest,
           writes (log p)
           = (cw, mkMessage "start" "white" "" "" "")
             :: (cb, mkMessage "start" "black" "" "" "") :: rest
           /\ Forall (fun w => exists s,
                          fst w = conn_of cw cb (opposite s)
                          /\ In (EvReadJSON s (ReadOk (snd w))) (log p)) rest
           /\ ((forall s m, In (EvReadJSON s (ReadOk m)) (log p) ->
                            (Type_ m =? "start") = false) ->
               Forall (fun w => (Type_ (snd w) =? "start") = false) rest)
     end
  /\ exists rest,
      writes (log (run (acts ++ [RelayRun; RelayRun]) (spawn (Some cw) (Some cb))))
      = (cw, mkMessage "start" "white" "" "" "")
        :: (cb, mkMessage "start" "black" "" "" "") :: rest.
Proof.
  intros p. split; [reflexivity|]. split; [reflexivity|].
  assert (Hrest : forall l rest,
             Forall (forwarded_from l cw cb) rest ->
             Forall (fun w => exists s,
                         fst w = conn_of cw cb (opposite s)
                         /\ In (EvReadJSON s (ReadOk (snd w))) l) rest
             /\ ((forall s m, In (EvReadJSON s (ReadOk m)) l ->
                              (Type_ m =? "start") = false) ->
                 Forall (fun w => (Type_ (snd w) =? "start") = false) rest)).
  { intros l rest H. split.
    - revert H. apply Forall_impl. intros w (s & H1 & H2 & _). now exists s.
    - intros Hno. revert H. apply Forall_impl. intros w (s & _ & H2 & _).
      exact (Hno s (snd w) H2). }
  split.
  - pose proof (relay_inv_run cw cb acts) as (_ & _ & _ & _ & Hrel). fold p in Hrel.
    destruct (relay p); simpl in Hrel.
    + exact Hrel.
    + apply Hrel.
    + destruct Hrel as (rest & H1 & _ & H3). exists rest.
      split; [exact H1 | now apply Hrest].
    + destruct Hrel as (rest & H1 & H3). exists rest.
      split; [exact H1 | now apply Hrest].
  - pose proof (relay_inv_run cw cb (acts ++ [RelayRun; RelayRun]))
      as (_ & _ & _ & _ & Hrel).
    pose proof (relay_past_start _ cw cb (relay_inv_run cw cb acts)) as Hpast.
    rewrite <- run_app in Hpast.
    destruct (relay (run (acts ++ [RelayRun; RelayRun]) (spawn (Some cw) (Some cb))));
      try contradiction; simpl in Hrel.
    + destruct Hrel as (rest & H1 & _). now exists rest.
    + destruct Hrel as (rest & H1 & _). now exists rest.
Qed.

Lemma server_start_messages_sent_first_witness :
  let p := run [RelayRun; RelayRun; Read White (ReadOk e2e4); Comm White;
                Read Black (ReadOk promotion_move)] (spawn (Some 0) (Some 1)) in
  exists rest,
    writes (log p)
    = (0, mkMessage "start" "white" "" "" "")
      :: (1, mkMessage "start" "black" "" "" "") :: rest
    /\ Forall (fun w => (Type_ (snd w) =? "start") = false) rest.
Proof.
  destruct (proj1 (proj2 (proj2 (server_start_messages_sent_first 0 1
              [RelayRun; RelayRun; Read White (ReadOk e2e4); Comm White;
               Read Black (ReadOk promotion_move)]))))
    as (rest & H1 & _ & H3).
  exists rest. split; [exact H1|]. apply H3.
  intros s m Hin. simpl in Hin.
  repeat (destruct Hin as [Hin|Hin]; [try discriminate; now injection Hin as _ <-|]).
  contradiction.
Defined.

(** C3, as stated, fails: white's client sends a message of type start
    of its own while white holds the turn. It is relayed like a move, so
    black's connection is sent a second start message, and one that
    names the wrong colour. *)
Lemma client_start_is_relayed :
  let p := run [RelayRun; RelayRun;
                Read White (ReadOk (mkMessage "start" "white" "" "" ""));
                Comm White] (spawn (Some 0) (Some 1)) in
  writes (log p)
  = [(0, mkMessage "start" "white" "" "" "");
     (1, mkMessage "start" "black" "" "" "");
     (1, mkMessage "start" "white" "" "" "")]
  /\ written_to 1 (log p)
     = [mkMessage "start" "black" "" "" ""; mkMessage "start" "white" "" "" ""].
Proof. split; reflexivity. Qed.

(** * The reader and its signal *)

Lemma exited_closed_step cw cb a p p' :
  relay_inv cw cb p -> exited_closed cw cb p -> step a p = Some p' ->
  exited_closed cw cb p'.
Proof.
  intros Inv E H. pose proof Inv as (Hw & Hb & Hp & _ & _).
  unfold exited_closed in *.
  destruct a as [|s r|s|s].
  - apply step_RelayRun in H as (_ & [(Hr & ->)|(t & Hr & ->)]).
    + rewrite Hw. simpl. rewrite and_then_running by assumption.
      intros s Hs. simpl. log_simpl. apply E. now rewrite reader_set_relay, reader_emit in Hs.
    + rewrite Hb. simpl. rewrite and_then_running by assumption.
      intros s Hs. simpl. log_simpl. apply E. now rewrite reader_set_relay, reader_emit in Hs.
  - apply step_Read in H as (_ & Hs & [(Hc & ->)|(c & Hc & ->)]).
    + intros s' Hs'. apply E. now rewrite reader_panic in Hs'.
    + intros s' Hs'. autorewrite with session in *. simpl. log_simpl.
      apply E. destruct (Side_eqb s s'); [destruct r; discriminate | exact Hs'].
  - apply step_Comm in H as (_ & m & next & t & Hoff & Hr & ->).
    rewrite playChess_case_eq by (simpl; autorewrite with session; assumption).
    autorewrite with session. rewrite (sessConn_relay_inv cw cb p) by assumption.
    assert (Hnext : next <> Exited)
      by (apply offers_inv in Hoff as [(_ & ->)|(_ & _ & ->)]; discriminate).
    intros s' Hs'.
    assert (Hold : reader s' p = Exited).
    { destruct (Type_ m =? "error"); [|destruct (holds_turn s t)];
        autorewrite with session in Hs';
        (destruct (Side_eqb s s'); [contradiction | exact Hs']). }
    destruct (Type_ m =? "error"); [|destruct (holds_turn s t)];
      simpl; autorewrite with session; log_simpl; now apply E.
  - apply step_Exit in H as (_ & Hs & ->).
    rewrite (sessConn_relay_inv cw cb) by assumption.
    intros s' Hs'. simpl in *. autorewrite with session in *. log_simpl.
    apply in_or_app. destruct (Side_eqb s s') eqn:Eq.
    + apply Side_eqb_eq in Eq as ->. right. now left.
    + left. now apply E.
Qed.

Lemma exited_closed_run cw cb acts :
  exited_closed cw cb (run acts (spawn (Some cw) (Some cb))).
Proof.
  apply (run_invariant (fun p => relay_inv cw cb p /\ exited_closed cw cb p)).
  - intros a p p' [Inv E] H. split.
    + eapply relay_inv_step; eauto.
    + eapply exited_closed_step; eauto.
  - split; [apply relay_inv_spawn|]. intros []; discriminate.
Qed.

Lemma returning_step s a p p' :
  reader s p = AtReturn \/ reader s p = Exited ->
  step a p = Some p' ->
  reader s p' = AtReturn \/ reader s p' = Exited.
Proof.
  intros Hs H. destruct a as [|s' r|s'|s'].
  - apply step_RelayRun in H as (_ & [(_ & ->)|(t & _ & ->)]).
    + destruct (same_view_trans s p _ _
                  (same_view_WriteJSON s (sessWhite p) (startMessage "white") p)
                  (same_view_and_then s (AtStartBlack true) _)) as [-> _].
      exact Hs.
    + destruct (same_view_trans s p _ _
                  (same_view_WriteJSON s (sessBlack p) (startMessage "black") p)
                  (same_view_and_then s (AtSelect t) _)) as [-> _].
      exact Hs.
  - apply step_Read in H as (_ & Hs' & [(_ & ->)|(c & _ & ->)]).
    + now rewrite reader_panic.
    + autorewrite with session. destruct (Side_eqb s' s) eqn:E; [|exact Hs].
      apply Side_eqb_eq in E as ->. rewrite Hs' in Hs. destruct Hs; discriminate.
  - apply step_Comm in H as (_ & m & next & t & Hoff & _ & ->).
    destruct (same_view_playChess_case s s' m t
                (emit (EvChan s' m) (set_reader s' next p))) as [-> _].
    autorewrite with session. destruct (Side_eqb s' s) eqn:E; [|exact Hs].
    apply Side_eqb_eq in E as ->.
    apply offers_inv in Hoff as [(Hs' & _)|(Hs' & _)]; rewrite Hs' in Hs;
      destruct Hs; discriminate.
  - apply step_Exit in H as (_ & _ & ->).
    destruct (same_view_Close s (sessConn s' p) (set_reader s' Exited p)) as [-> _].
    autorewrite with session. destruct (Side_eqb s' s); [now right | exact Hs].
Qed.

Lemma returning_exits cw cb s p acts :
  relay_inv cw cb p ->
  reader s p = AtReturn \/ reader s p = Exited ->
  reader s (run (acts ++ [Exit s]) p) = Exited.
Proof.
  intros Inv Hs. rewrite run_app.
  assert (H : relay_inv cw cb (run acts p)
              /\ (reader s (run acts p) = AtReturn \/ reader s (run acts p) = Exited)).
  { apply (run_invariant (fun q => relay_inv cw cb q
             /\ (reader s q = AtReturn \/ reader s q = Exited))); [|now split].
    intros a q q' [Hq1 Hq2] H. split.
    - eapply relay_inv_step; eauto.
    - eapply returning_step; eauto. }
  destruct H as [(_ & _ & Hp & _) [Hr|Hr]].
  - change (run [Exit s] (run acts p)) with (step_or_stay (run acts p) (Exit s)).
    unfold step_or_stay. rewrite (Exit_enabled _ s Hp Hr).
    destruct (same_view_Close s (sessConn s (run acts p))
                (set_reader s Exited (run acts p))) as [-> _].
    now autorewrite with session.
  - change (run [Exit s] (run acts p)) with (step_or_stay (run acts p) (Exit s)).
    unfold step_or_stay, step, forwardFromWebsocketToChannel_return.
    now rewrite Hp, Hr.
Qed.

(** C7, as the code has it. In a game between two connections, whatever
    the schedule, a reader publishes what it read in the order it read
    it, one message at a time: the channel has carried the messages read
    so far but the one the reader is blocked sending. Only the last read
    can be a failure; after it the reader reads no more and offers one
    error message, so its channel carries at most one signal for the
    failure, after every message read before. While [playChess] is in
    its [select] the signal can be taken; when it is taken, [playChess]
    returns and the reader is at its [return]: whatever else is
    scheduled, the next time the reader runs it has closed its
    connection and exited. If [playChess] has returned before taking it, the reader
    stays in its send whatever is scheduled: its channel carries nothing
    more, it never exits and, the two connections being distinct, its
    connection is never closed. A connection is closed exactly when its
    reader has exited. *)
Theorem reader_publishes_in_order_and_signals_once
    (cw cb : Conn) (acts : list Action) (s : Side) :
  let p := run acts (spawn (Some cw) (Some cb)) in
  reader_inv s p
  /\ map published (reads s (log p)) = chan s (log p) ++ pending (reader s p)
  /\ (forall t,
         relay p = AtSelect t -> reader s p = AtSendError ->
         exists p' p'',
           step (Comm s) p = Some p'
           /\ chan s (log p') = chan s (log p) ++ [errorMessage]
           /\ relay p' = Returned
           /\ reader s p' = AtReturn
           /\ step (Exit s) p' = Some p''
           /\ reader s p'' = Exited
           /\ log p'' = log p' ++ [EvClose (conn_of cw cb s)]
           /\ chan s (log p'') = map published (reads s (log p''))
           /\ forall acts',
               reader s (run (acts' ++ [Exit s]) p') = Exited
               /\ In (conn_of cw cb s)
                     (closes (log (run (acts' ++ [Exit s]) p'))))
  /\ (relay p = Returned -> blocked (reader s p) = true ->
      forall acts',
        chan s (log (run acts' p)) = chan s (log p)
        /\ reader s (run acts' p) = reader s p
        /\ (cw <> cb -> ~ In (conn_of cw cb s) (closes (log (run acts' p)))))
  /\ (cw <> cb ->
      (In (conn_of cw cb s) (closes (log p)) <-> reader s p = Exited)).
Proof.
  intros p.
  pose proof (reader_inv_run s (Some cw) (Some cb) acts) as Inv. fold p in Inv.
  pose proof (relay_inv_run cw cb acts) as RInv. fold p in RInv.
  assert (Hclosed : forall acts0, cw <> cb ->
             In (conn_of cw cb s) (closes (log (run acts0 (spawn (Some cw) (Some cb)))))
             -> reader s (run acts0 (spawn (Some cw) (Some cb))) = Exited).
  { intros acts0 Hne Hin. destruct (close_inv_run cw cb acts0) as [_ Hc].
    destruct (Hc _ Hin) as (s' & Heq & Hs').
    assert (s' = s) as -> by (destruct s, s'; simpl in Heq; congruence).
    exact Hs'. }
  split; [exact Inv|]. split; [now apply reader_inv_pending|]. split; [|split].
  - intros t Hr Hs. pose proof RInv as (_ & _ & Hp & _ & _).
    assert (Ho : offers s p = Some (errorMessage, AtReturn))
      by (unfold offers; now rewrite Hs).
    set (p' := set_relay Returned
                 (emit (EvChan s errorMessage) (set_reader s AtReturn p))).
    assert (Hstep : step (Comm s) p = Some p')
      by now apply (Comm_error p s errorMessage AtReturn t).
    assert (Hs' : reader s p' = AtReturn)
      by (unfold p'; now autorewrite with session).
    assert (Hp' : panicked p' = false)
      by (unfold p'; simpl; now autorewrite with session).
    assert (Hc' : sessConn s p' = Some (conn_of cw cb s)).
    { unfold p'. autorewrite with session.
      now apply sessConn_relay_inv. }
    set (p'' := emit (EvClose (conn_of cw cb s)) (set_reader s Exited p')).
    assert (Hstep' : step (Exit s) p' = Some p'').
    { rewrite (Exit_enabled p' s Hp' Hs'), Hc'. reflexivity. }
    assert (Hs'' : reader s p'' = Exited)
      by (unfold p''; now autorewrite with session).
    assert (Hreach : p' = run (acts ++ [Comm s]) (spawn (Some cw) (Some cb))).
    { rewrite run_app. fold p.
      change (run [Comm s] p) with (step_or_stay p (Comm s)).
      unfold step_or_stay. now rewrite Hstep. }
    assert (Hexit : forall acts', reader s (run (acts' ++ [Exit s]) p') = Exited).
    { intros acts'. apply (returning_exits cw cb); [|now left].
      rewrite Hreach. apply relay_inv_run. }
    exists p', p''.
    split; [exact Hstep|]. split.
    { unfold p'. simpl. autorewrite with session.
      rewrite chan_app, chan_one. now autorewrite with session. }
    split; [reflexivity|]. split; [exact Hs'|]. split; [exact Hstep'|].
    split; [exact Hs''|]. split.
    { unfold p''. unfold emit at 1. simpl. now rewrite log_set_reader. }
    split.
    { pose proof (reader_inv_step s _ _ _ (reader_inv_step s _ _ _ Inv Hstep) Hstep')
        as Inv''.
      apply reader_inv_pending in Inv''. rewrite Hs'' in Inv''. simpl in Inv''.
      now rewrite app_nil_r in Inv''. }
    intros acts'. split; [apply Hexit|].
    pose proof (Hexit acts') as He. rewrite Hreach, <- run_app in He |- *.
    now apply exited_closed_run.
  - intros Hr Hb acts'.
    destruct (after_return_run p acts' Hr) as (_ & _ & Hs).
    destruct (Hs s) as [Hc Hrd]. specialize (Hrd Hb).
    split; [exact Hc|]. split; [exact Hrd|].
    intros Hne Hin. unfold p in Hin, Hrd. rewrite <- run_app in Hin, Hrd.
    apply (Hclosed _ Hne) in Hin. rewrite Hrd in Hin. fold p in Hin.
    rewrite Hin in Hb. discriminate.
  - intros Hne. split.
    + apply (Hclosed acts Hne).
    + apply (exited_closed_run cw cb acts).
Qed.

Lemma reader_publishes_in_order_and_signals_once_witness :
  (let p := run [RelayRun; RelayRun; Read Black (ReadOk e2e4); Comm Black;
                 Read Black ReadErr; Read White ReadErr] (spawn (Some 0) (Some 1)) in
   exists p' p'',
     step (Comm Black) p = Some p'
     /\ chan Black (log p') = chan Black (log p) ++ [errorMessage]
     /\ relay p' = Returned
     /\ reader Black p' = AtReturn
     /\ step (Exit Black) p' = Some p''
     /\ reader Black p'' = Exited
     /\ log p'' = log p' ++ [EvClose (conn_of 0 1 Black)]
     /\ chan Black (log p'') = map published (reads Black (log p''))
     /\ forall acts',
         reader Black (run (acts' ++ [Exit Black]) p') = Exited
         /\ In (conn_of 0 1 Black)
               (closes (log (run (acts' ++ [Exit Black]) p'))))
  /\ (let p := run [RelayRun; RelayRun; Read Black (ReadOk e2e4); Comm Black;
                    Read Black ReadErr; Read White ReadErr; Comm Black]
                   (spawn (Some 0) (Some 1)) in
      forall acts',
        chan White (log (run acts' p)) = chan White (log p)
        /\ reader White (run acts' p) = reader White p
        /\ (0 <> 1 -> ~ In (conn_of 0 1 White) (closes (log (run acts' p)))))
  /\ (In (conn_of 0 1 Black)
         (closes (log (run [RelayRun; RelayRun; Read Black ReadErr; Comm Black;
                            Exit Black] (spawn (Some 0) (Some 1)))))
      <-> reader Black (run [RelayRun; RelayRun; Read Black ReadErr; Comm Black;
                             Exit Black] (spawn (Some 0) (Some 1))) = Exited).
Proof.
  split; [|split].
  - apply (proj1 (proj2 (proj2 (reader_publishes_in_order_and_signals_once 0 1
             [RelayRun; RelayRun; Read Black (ReadOk e2e4); Comm Black;
              Read Black ReadErr; Read White ReadErr] Black))) true); reflexivity.
  - apply (proj1 (proj2 (proj2 (proj2
             (reader_publishes_in_order_and_signals_once 0 1
                [RelayRun; RelayRun; Read Black (ReadOk e2e4); Comm Black;
                 Read Black ReadErr; Read White ReadErr; Comm Black] White)))));
      reflexivity.
  - apply (proj2 (proj2 (proj2 (proj2
             (reader_publishes_in_order_and_signals_once 0 1
                [RelayRun; RelayRun; Read Black ReadErr; Comm Black; Exit Black]
                Black))))).
    discriminate.
Defined.

(** * The calls of [wsHandler] *)

Arguments call_step : simpl never.

Lemma nth_error_middle {A} (done : list A) (c : A) (rest : list A) :
  nth_error (done ++ c :: rest) (length done) = Some c.
Proof. now rewrite nth_error_app2, Nat.sub_diag by lia. Qed.

Lemma replace_nth_middle {A} (done : list A) (c c' : A) (rest : list A) :
  replace_nth (length done) c' (done ++ c :: rest) = done ++ c' :: rest.
Proof. induction done as [|d done IH]; simpl; [reflexivity | now rewrite IH]. Qed.

Lemma call_step_middle srv done c rest :
  call_step (mkProcess srv (done ++ c :: rest) false) (length done)
  = match call_statement c srv with
    | None => mkProcess srv (done ++ c :: rest) true
    | Some (c', srv') => mkProcess srv' (done ++ c' :: rest) false
    end.
Proof.
  unfold call_step. cbn [crashed calls shared]. rewrite nth_error_middle.
  destruct (call_statement c srv) as [[c' srv']|]; [|reflexivity].
  now rewrite replace_nth_middle.
Qed.

(** The statements of one call, run without another call in between,
    are [wsHandler]. *)
Lemma handle_one_call srv done ws rest :
  handle [length done; length done; length done]
         (mkProcess srv (done ++ mkCall ws AtTest :: rest) false)
  = mkProcess (wsHandler srv ws) (done ++ mkCall ws Handled :: rest) false.
Proof.
  unfold handle. simpl. rewrite call_step_middle. simpl.
  unfold wsHandler. destruct srv as [[g|] rt]; simpl.
  - rewrite call_step_middle. unfold call_statement at 1. simpl.
    destruct (Join g ws rt) as [[g' rt'] e]. now rewrite call_step_middle.
  - rewrite call_step_middle. simpl. now rewrite call_step_middle.
Qed.

Lemma handle_one_after_the_other incoming :
  forall srv done,
    handle (one_after_the_other (length done) (length incoming))
           (mkProcess srv (done ++ map (fun ws => mkCall ws AtTest) incoming) false)
    = mkProcess (serve incoming srv)
                (done ++ map (fun ws => mkCall ws Handled) incoming) false.
Proof.
  induction incoming as [|ws incoming IH]; intros srv done; [reflexivity|].
  unfold one_after_the_other. simpl length. simpl seq. simpl flat_map.
  change (length done :: length done :: length done
          :: flat_map (fun i => [i; i; i]) (seq (S (length done)) (length incoming)))
    with ([length done; length done; length done]
          ++ one_after_the_other (S (length done)) (length incoming)).
  unfold handle. rewrite fold_left_app. fold (handle [length done; length done; length done]).
  simpl map. rewrite handle_one_call.
  replace (S (length done)) with (length (done ++ [mkCall ws Handled]))
    by (rewrite length_app; simpl; lia).
  change (done ++ mkCall ws AtTest :: map (fun ws0 => mkCall ws0 AtTest) incoming)
    with (done ++ [mkCall ws AtTest] ++ map (fun ws0 => mkCall ws0 AtTest) incoming).
  replace (done ++ mkCall ws Handled :: map (fun ws0 => mkCall ws0 AtTest) incoming)
    with ((done ++ [mkCall ws Handled]) ++ map (fun ws0 => mkCall ws0 AtTest) incoming)
    by now rewrite <- app_assoc.
  fold (handle (one_after_the_other (length (done ++ [mkCall ws Handled])) (length incoming))).
  rewrite IH. simpl. now rewrite <- app_assoc.
Qed.

Lemma sessions_of_pairs (pairs : list (ConnPtr * ConnPtr)) :
  map (fun p => (sessWhite p, sessBlack p))
      (map (fun wb => spawn (fst wb) (snd wb)) pairs) = pairs
  /\ Forall (fun p => relay p = AtStart /\ log p = [])
            (map (fun wb => spawn (fst wb) (snd wb)) pairs).
Proof.
  induction pairs as [|[w b] pairs [IH1 IH2]]; [now split|].
  simpl. rewrite IH1. split; [reflexivity|]. constructor; [now split | exact IH2].
Qed.

(** C2, as the code has it. One call of [wsHandler] on a new
    connection: when it finds no open game it records a new game holding
    the connection as white; when it finds one it calls [Join] with the
    connection and sets the record back to nil whatever [Join] returns.
    When the calls do not overlap (each runs its statements before the
    next starts), the shared state after them is the one of the calls
    taken one after the other, and then: the games started hold the 1st
    arrival with the 2nd, the 3rd with the 4th, and so on, each game
    just started; the open game is the one of the last arrival when
    their number is odd, so at most one arrival waits; and every arrival
    is in a started game or waits. *)
Theorem wsHandler_pairs_when_calls_do_not_overlap :
  (forall rt ws,
      wsHandler (mkServer None rt) ws = mkServer (Some (mkChessGame ws None)) rt)
  /\ (forall g rt ws,
         game (wsHandler (mkServer (Some g) rt) ws) = None
         /\ sessions (wsHandler (mkServer (Some g) rt) ws)
            = snd (fst (Join g ws rt)))
  /\ (forall incoming,
         handle (one_after_the_other 0 (length incoming)) (accepted incoming)
         = mkProcess (serve incoming initServer)
                     (map (fun ws => mkCall ws Handled) incoming) false)
  /\ (forall incoming,
         let srv := serve incoming initServer in
         map (fun p => (sessWhite p, sessBlack p)) (sessions srv) = pair_up incoming
         /\ Forall (fun p => relay p = AtStart /\ log p = []) (sessions srv)
         /\ game srv
            = option_map (fun ws => mkChessGame ws None) (left_over incoming)
         /\ length (waiting srv) <= 1
         /\ length incoming = 2 * length (sessions srv) + length (waiting srv)).
Proof.
  split; [reflexivity|]. split; [|split].
  - intros g rt ws. unfold wsHandler. simpl.
    destruct (Join g ws rt) as [[g' rt'] e]. now split.
  - intros incoming. apply (handle_one_after_the_other incoming initServer []).
  - intros incoming srv.
    destruct (every_two_placed incoming) as [Hall Hn]. fold srv in Hall, Hn.
    assert (Hsrv : srv = mkServer (option_map NewChessGame (left_over incoming))
                              (map (fun wb => spawn (fst wb) (snd wb)) (pair_up incoming)))
      by (unfold srv, initServer; now rewrite serve_from_idle).
    destruct (sessions_of_pairs (pair_up incoming)) as [Hp Hf].
    assert (Hwait : length (waiting srv) <= 1)
      by (unfold waiting; destruct (game srv); simpl; lia).
    rewrite Hsrv at 1 2 3. simpl. repeat split; auto.
    rewrite <- Hall at 1. rewrite length_app. f_equal.
    clear. induction (sessions srv) as [|p l IH]; simpl; lia.
Qed.

(** C2, as stated, fails: the handler takes no lock, and two calls can
    both find no open game. The calls of the first two arrivals both
    test, then both record a new game, the second over the first; the
    third arrival then joins the game of the second. The first arrival
    is in no game and does not wait, and the game started holds the 2nd
    with the 3rd. *)
Lemma overlapping_calls_drop_an_arrival :
  let P := handle [0; 1; 0; 1; 2; 2; 2] (accepted [Some 0; Some 1; Some 2]) in
  P = mkProcess (mkServer None [spawn (Some 1) (Some 2)])
                [mkCall (Some 0) Handled; mkCall (Some 1) Handled;
                 mkCall (Some 2) Handled]
                false
  /\ pair_up [Some 0; Some 1; Some 2] = [(Some 0, Some 1)]
  /\ map (fun p => (sessWhite p, sessBlack p)) (sessions (shared P))
     = [(Some 1, Some 2)]
  /\ ~ In (Some 0) (flat_map members (sessions (shared P)) ++ waiting (shared P)).
Proof.
  intros P. repeat split.
  simpl. intros H. repeat destruct H as [H|H]; try discriminate; exact H.
Qed.
